(** * Product catalog and checkout of the serverless shop

    The product Lambda of [src/product/index_after.js] (its operations,
    the requests they build and the way they read the answers), the part
    of DynamoDB those requests exercise, and the checkout orchestration of
    the basket service. *)

From Stdlib Require Import ZArith Ascii String List Lia.
From stdpp Require Import base tactics option list strings pretty gmap fin_maps.

Local Open Scope string_scope.

(** ** JavaScript values *)

Module Js.

(** A number, by the decimal it prints as: [Finite m e] is m times ten to
    the e; beside them the two kinds of special value. *)
Inductive Number : Type :=
| Finite (mantissa exponent : Z)
| NaN
| Infinity (negative : bool).

Definition MAX_SAFE_INTEGER : Z := 2 ^ 53 - 1.

(** Neither special nor greater than [Number.MAX_SAFE_INTEGER] nor less
    than [Number.MIN_SAFE_INTEGER]: the numbers [marshall] takes. *)
Definition Number_safe (n : Number) : bool :=
  match n with
  | Finite m e =>
      if (0 <=? e)%Z
      then (Z.abs m * 10 ^ e <=? MAX_SAFE_INTEGER)%Z
      else (Z.abs m <=? MAX_SAFE_INTEGER * 10 ^ (- e))%Z
  | NaN | Infinity _ => false
  end.

(** What [JSON.parse] can return.  An object is given by its own
    enumerable properties in the order [Object.keys] lists them. *)
Unset Elimination Schemes.
Inductive Value : Type :=
| JNull
| JBool (b : bool)
| JNumber (n : Number)
| JString (s : string)
| JArray (l : list Value)
| JObject (fields : list (string * Value)).
Set Elimination Schemes.

(** Why the store refuses a request. *)
Inductive Reason : Type :=
| InvalidExpression    (* an expression that does not parse *)
| EmptyExpressionMap   (* ExpressionAttributeNames or Values given empty *)
| UndefinedPlaceholder (* a #name or :value the request does not define *)
| KeyAttributeUpdate   (* an update that assigns to the key attribute *)
| EmptyAttributeName   (* an attribute whose name is the empty string *)
| OverlappingPaths     (* one attribute assigned twice in an update *)
| KeySchemaMismatch    (* a key that is not exactly a string id *)
| InvalidKeyValue      (* a key that is empty or longer than a key may be *)
| InvalidParameter     (* a parameter that is missing or of no type *)
| LimitExceeded.       (* an item or an expression beyond the limits *)

Inductive Exception : Type :=
| SyntaxError          (* JSON.parse on text that is not JSON *)
| TypeError            (* a property of null or undefined *)
| MarshallError        (* marshall on undefined or on an unsafe number *)
| UnsupportedRoute (method : string)
| ValidationException (why : Reason).

Inductive Result (A : Type) : Type :=
| Ok (a : A)
| Throw (e : Exception).
Arguments Ok {A} a.
Arguments Throw {A} e.

(** [obj[k] = v]: an existing property keeps its place, a new one goes
    last. *)
Fixpoint set_prop {A} (k : string) (v : A) (o : list (string * A))
  : list (string * A) :=
  match o with
  | [] => [(k, v)]
  | (k', v') :: o' =>
      if decide (k' = k) then (k, v) :: o' else (k', v') :: set_prop k v o'
  end.

(** [obj[k]], [None] for [undefined]. *)
Fixpoint get_prop {A} (k : string) (o : list (string * A)) : option A :=
  match o with
  | [] => None
  | (k', v') :: o' => if decide (k' = k) then Some v' else get_prop k o'
  end.

(** The own enumerable properties of a value: those of an object, the
    indices of an array, the indices of a string (one property per
    character); a number or a boolean has none. *)
Definition own_entries (v : Value) : list (string * Value) :=
  match v with
  | JObject fields => fields
  | JArray l => imap (fun i x => (pretty i, x)) l
  | JString s =>
      imap (fun i c => (pretty i, JString (String c EmptyString)))
           (list_ascii_of_string s)
  | JNull | JBool _ | JNumber _ => []
  end.

(** [Object.keys(v)] throws on [null]. *)
Definition Object_keys (v : Value) : Result (list string) :=
  match v with
  | JNull => Throw TypeError
  | _ => Ok (fst <$> own_entries v)
  end.

(** [v[k]] for a non-null [v]. *)
Definition member (v : Value) (k : string) : option Value :=
  get_prop k (own_entries v).

(** [Array.prototype.map] and [Array.prototype.reduce] with the index
    passed to the callback. *)
Definition map_indexed {A B} (f : A -> nat -> B) (l : list A) : list B :=
  imap (fun i x => f x i) l.

Fixpoint reduce_from {A B} (f : B -> A -> nat -> B) (start : nat)
         (acc : B) (l : list A) : B :=
  match l with
  | [] => acc
  | x :: l' => reduce_from f (S start) (f acc x start) l'
  end.

Definition reduce {A B} (f : B -> A -> nat -> B) (init : B) (l : list A) : B :=
  reduce_from f 0 init l.

(** [Array.prototype.join]. *)
Definition join (sep : string) (l : list string) : string :=
  String.concat sep l.





End Js.

(** ** The DynamoDB client

    The service behind [ddbClient.send], as far as the product handlers
    use it: one table, the six commands they send, the checks on the
    structure of a request (the expressions, their placeholders, the
    names, the key) and, as a parameter, the limits the service puts on
    what it stores.  The table is reachable and holds what this service
    can have written: failures of the transport are left out, and so are
    numbers outside the range [marshall] accepts. *)

Module DynamoDB.
Import Js.

(** The numbers of the table: those within the safe range, the only ones
    [marshall] sends. *)
Record SafeNumber : Type := {
  number : Number;
  number_safe : Is_true (Number_safe number)
}.

Definition safe_number (n : Number) : option SafeNumber :=
  match decide (Is_true (Number_safe n)) with
  | left H => Some {| number := n; number_safe := H |}
  | right _ => None
  end.

(** Attribute values as the wire format tags them ([NULL] stands for
    [{NULL: true}], [N] carries the number whose decimal text is on the
    wire).  Sets are left out: [marshall] makes them only from JavaScript
    [Set]s, which JSON does not have. *)
Unset Elimination Schemes.
Inductive AttributeValue : Type :=
| S (s : string)
| N (n : SafeNumber)
| BOOL (b : bool)
| NULL
| L (l : list AttributeValue)
| M (m : list (string * AttributeValue)).
Set Elimination Schemes.

(** [convertToAttr] and [convertToNative] of [@aws-sdk/util-dynamodb];
    [None] where [convertToAttr] throws, on a number that is special or
    outside the safe range, at any depth. *)
Fixpoint convertToAttr (v : Value) : option AttributeValue :=
  match v with
  | JNull => Some NULL
  | JBool b => Some (BOOL b)
  | JNumber n => N <$> safe_number n
  | JString s => Some (S s)
  | JArray l =>
      L <$> (fix each (l : list Value) : option (list AttributeValue) :=
               match l with
               | [] => Some []
               | x :: l' =>
                   match convertToAttr x, each l' with
                   | Some a, Some r => Some (a :: r)
                   | _, _ => None
                   end
               end) l
  | JObject fields =>
      M <$> (fix each (o : list (string * Value))
               : option (list (string * AttributeValue)) :=
               match o with
               | [] => Some []
               | (k, x) :: o' =>
                   match convertToAttr x, each o' with
                   | Some a, Some r => Some ((k, a) :: r)
                   | _, _ => None
                   end
               end) fields
  end.

Fixpoint convertToNative (a : AttributeValue) : Value :=
  match a with
  | NULL => JNull
  | BOOL b => JBool b
  | N n => JNumber (number n)
  | S s => JString s
  | L l => JArray (map convertToNative l)
  | M m => JObject (map (fun kv => (kv.1, convertToNative kv.2)) m)
  end.

(** [marshall(obj)] of an object gives the record of its attributes, or
    throws; [unmarshall(item)] gives the object back.  The order of the
    attributes of an item means nothing, so both sides of the wire are
    finite maps. *)
Definition marshall_entry (kv : string * Value)
  : option (string * AttributeValue) :=
  pair kv.1 <$> convertToAttr kv.2.

Definition marshall (obj : list (string * Value))
  : Result (gmap string AttributeValue) :=
  match mapM marshall_entry obj with
  | Some attributes => Ok (list_to_map attributes)
  | None => Throw MarshallError
  end.

Definition unmarshall (item : gmap string AttributeValue) : gmap string Value :=
  convertToNative <$> item.

(** Equality of attribute values; numbers are equal by value. *)
Definition Number_eqb (n n' : Number) : bool :=
  match n, n' with
  | Finite m e, Finite m' e' =>
      let low := Z.min e e' in
      (m * 10 ^ (e - low) =? m' * 10 ^ (e' - low))%Z
  | _, _ => false
  end.

Fixpoint AttributeValue_eqb (a b : AttributeValue) {struct a} : bool :=
  match a, b with
  | S s, S s' => bool_decide (s = s')
  | N n, N n' => Number_eqb (number n) (number n')
  | BOOL x, BOOL x' => bool_decide (x = x')
  | NULL, NULL => true
  | L l, L l' =>
      (fix all2 (l l' : list AttributeValue) : bool :=
         match l, l' with
         | [], [] => true
         | x :: l, x' :: l' => AttributeValue_eqb x x' && all2 l l'
         | _, _ => false
         end) l l'
  | M m, M m' =>
      (fix all2 (m m' : list (string * AttributeValue)) : bool :=
         match m, m' with
         | [], [] => true
         | (k, x) :: m, (k', x') :: m' =>
             bool_decide (k = k') && AttributeValue_eqb x x' && all2 m m'
         | _, _ => false
         end) m m'
  | _, _ => false
  end.

(** *** Expressions

    Update, key-condition and filter expressions reach the service as
    text.  Blanks separate words; [=], [,] and the parentheses stand
    alone. *)
Inductive Token : Type :=
| TWord (w : string)
| TEq
| TComma
| TLParen
| TRParen.

Definition punctuation (c : ascii) : option Token :=
  if decide (c = "="%char) then Some TEq
  else if decide (c = ","%char) then Some TComma
  else if decide (c = "("%char) then Some TLParen
  else if decide (c = ")"%char) then Some TRParen
  else None.

Definition flush (word : string) : list Token :=
  match word with
  | EmptyString => []
  | _ => [TWord word]
  end.

Fixpoint tokenize_from (word : string) (s : string) : list Token :=
  match s with
  | EmptyString => flush word
  | String c s' =>
      if decide (c = " "%char) then flush word ++ tokenize_from "" s'
      else match punctuation c with
           | Some t => flush word ++ t :: tokenize_from "" s'
           | None => tokenize_from (word +:+ String c "") s'
           end
  end.

Definition tokenize (s : string) : list Token := tokenize_from "" s.

(** The characters a word is made of, and the texts made of them only. *)
Definition word_char (c : ascii) : bool :=
  negb (bool_decide (c = " "%char)) && bool_decide (punctuation c = None).

Fixpoint word (s : string) : bool :=
  match s with
  | EmptyString => true
  | String c s' => word_char c && word s'
  end.

(** [path = operand {, path = operand}], at least one. *)
Fixpoint parse_assignments (ts : list Token) : option (list (string * string)) :=
  match ts with
  | TWord path :: TEq :: TWord operand :: rest =>
      match rest with
      | [] => Some [(path, operand)]
      | TComma :: rest' => cons (path, operand) <$> parse_assignments rest'
      | _ => None
      end
  | _ => None
  end.

(** [SET] followed by its assignments: the one update action the
    product service writes. *)
Definition parse_update (expr : string) : option (list (string * string)) :=
  match tokenize expr with
  | TWord "SET" :: ts => parse_assignments ts
  | _ => None
  end.

(** [attribute = :value], the condition on the partition key. *)
Definition parse_key_condition (expr : string) : option (string * string) :=
  match tokenize expr with
  | [TWord attr; TEq; TWord operand] => Some (attr, operand)
  | _ => None
  end.

(** [contains (path, :value)]. *)
Definition parse_contains (expr : string) : option (string * string) :=
  match tokenize expr with
  | [TWord "contains"; TLParen; TWord path; TComma; TWord operand; TRParen] =>
      Some (path, operand)
  | _ => None
  end.

(** A path that starts with [#] is looked up in ExpressionAttributeNames,
    any other word names the attribute itself. *)
Definition resolve_name (names : gmap string string) (path : string)
  : option string :=
  match path with
  | String "#" _ => names !! path
  | _ => Some path
  end.

(** An operand is a [:value] of ExpressionAttributeValues. *)
Definition resolve_value (values : gmap string AttributeValue)
           (operand : string) : option AttributeValue :=
  match operand with
  | String ":" _ => values !! operand
  | _ => None
  end.

(** [sub] occurs in [s]. *)
Fixpoint occurs_in (sub s : string) : bool :=
  String.prefix sub s ||
  match s with
  | EmptyString => false
  | String _ s' => occurs_in sub s'
  end.

(** The [contains] function of condition expressions: a substring of a
    string attribute, or an element of a list attribute (maps inside
    a list are compared attribute by attribute, in the stored order). *)
Definition contains (attr : option AttributeValue) (operand : AttributeValue)
  : bool :=
  match attr with
  | Some (S s) =>
      match operand with
      | S sub => occurs_in sub s
      | _ => false
      end
  | Some (L l) => existsb (AttributeValue_eqb operand) l
  | _ => false
  end.

(** *** The product table

    One table, the one [DYNAMODB_TABLE_NAME] names, with the string
    attribute [id] as its partition key and no sort key.  It is kept as
    the map from the text of the key to the item with that key; an item
    carries all its attributes, [id] among them. *)
Abbreviation Item := (gmap string AttributeValue).
Abbreviation Table := (gmap string (gmap string AttributeValue)).

Definition partition_key : string := "id".

(** A key value is not empty and has 2048 bytes at most. *)
Definition key_ok (k : string) : bool :=
  bool_decide (k <> "") && (String.length k <=? 2048)%nat.

(** Every stored item carries the key it is stored under, and the key is
    one the store takes. *)
Definition table_wf (t : Table) : Prop :=
  forall k (item : Item),
    t !! k = Some item ->
    item !! partition_key = Some (S k) /\ key_ok k = true.

(** The limits of the service that depend on sizes: on an item as a
    whole (its size, the depth of its values, the magnitude and the
    precision of its numbers, the names inside its values) and on the
    text of an update expression.  They are not spelled out: whatever is
    proved holds for any such limits. *)
Class Limits : Type := {
  item_ok : Item -> bool;
  expression_ok : string -> bool
}.

Module UpdateItem.
Record Input : Type := {
  Key : Item;
  UpdateExpression : string;
  ExpressionAttributeNames : gmap string string;
  ExpressionAttributeValues : gmap string AttributeValue
}.
End UpdateItem.

Module Query.
Record Input : Type := {
  KeyConditionExpression : string;
  FilterExpression : string;
  (* [None] on a field stands for a value without a type, as
     [{S: undefined}] is *)
  ExpressionAttributeValues : gmap string (option AttributeValue)
}.
End Query.

Inductive Command : Type :=
| GetItemCommand (Key : Item)
| PutItemCommand (item : Item)
| DeleteItemCommand (Key : Item)
| UpdateItemCommand (input : UpdateItem.Input)
| ScanCommand
| QueryCommand (input : Query.Input).

(** What [send] resolves to: the response fields the handlers read. *)
Record Output : Type := {
  Item_ : option Item;
  Items_ : option (list Item)
}.

Definition metadata : Output := {| Item_ := None; Items_ := None |}.

(** Commands run against the table; a command the service refuses
    leaves it as it was. *)
Definition Client (A : Type) : Type := Table -> Result A * Table.

Definition ret {A} (a : A) : Client A := fun t => (Ok a, t).
Definition throw {A} (e : Exception) : Client A := fun t => (Throw e, t).
Definition bind {A B} (m : Client A) (k : A -> Client B) : Client B :=
  fun t =>
    match m t with
    | (Ok a, t') => k a t'
    | (Throw e, t') => (Throw e, t')
    end.
Definition try_catch {A} (m : Client A) (handler : Exception -> Client A)
  : Client A :=
  fun t =>
    match m t with
    | (Ok a, t') => (Ok a, t')
    | (Throw e, t') => handler e t'
    end.
Definition lift {A} (r : Result A) : Client A := fun t => (r, t).
Definition refuse {A} (why : Reason) : Client A :=
  throw (ValidationException why).

(** The key of a request: exactly the partition key, of type string,
    with a value that may be a key. *)
Definition key_of (Key : Item) : Result string :=
  match Key !! partition_key with
  | Some (S k) =>
      if Nat.eqb (size Key) 1
      then if key_ok k then Ok k else Throw (ValidationException InvalidKeyValue)
      else Throw (ValidationException KeySchemaMismatch)
  | _ => Throw (ValidationException KeySchemaMismatch)
  end.

Definition resolve_assignment (names : gmap string string)
           (values : gmap string AttributeValue) (a : string * string)
  : option (string * AttributeValue) :=
  match resolve_name names a.1, resolve_value values a.2 with
  | Some attr, Some v => Some (attr, v)
  | _, _ => None
  end.

(** The [SET] action: each assignment in turn. *)
Definition apply_assignments (item : Item)
           (assignments : list (string * AttributeValue)) : Item :=
  foldl (fun it a => <[a.1 := a.2]> it) item assignments.

Section Store.
Context {limits : Limits}.

Definition GetItem (Key : Item) : Client Output :=
  fun t =>
    match key_of Key with
    | Ok k => (Ok {| Item_ := t !! k; Items_ := None |}, t)
    | Throw e => (Throw e, t)
    end.

(** PutItem wants an item with a key, no attribute without a name, and
    within the limits; it replaces whatever the key held. *)
Definition PutItem (item : Item) : Client Output :=
  fun t =>
    match item !! partition_key with
    | Some (S k) =>
        if negb (key_ok k) then refuse InvalidKeyValue t
        else if bool_decide (is_Some (item !! "")) then refuse EmptyAttributeName t
        else if item_ok item then (Ok metadata, <[k := item]> t)
        else refuse LimitExceeded t
    | _ => refuse KeySchemaMismatch t
    end.

(** DeleteItem does not mind a key that holds nothing. *)
Definition DeleteItem (Key : Item) : Client Output :=
  fun t =>
    match key_of Key with
    | Ok k => (Ok metadata, delete k t)
    | Throw e => (Throw e, t)
    end.

(** The assignments of a [SET], once its placeholders are resolved: they
    may not touch the key, nor name an attribute by the empty string,
    nor assign twice to one attribute; then they are applied to the item
    of the key, or to a new item that has the key alone when there is
    none, if the result is within the limits. *)
Definition SET (Key : Item) (expression : string)
           (assignments : list (string * AttributeValue)) : Client Output :=
  fun t =>
    if bool_decide (partition_key ∈ assignments.*1)
    then refuse KeyAttributeUpdate t
    else if bool_decide ("" ∈ assignments.*1)
    then refuse EmptyAttributeName t
    else if bool_decide (NoDup assignments.*1)
    then
      match key_of Key with
      | Throw e => (Throw e, t)
      | Ok k =>
          let item :=
            apply_assignments (default {[partition_key := S k]} (t !! k))
                              assignments in
          if expression_ok expression && item_ok item
          then (Ok metadata, <[k := item]> t)
          else refuse LimitExceeded t
      end
    else refuse OverlappingPaths t.

(** UpdateItem: the expression must parse, the maps of names and of
    values may not be given empty, and the placeholders must be defined.
    (When several checks fail the service names one of them; the order
    in which they are made here is one such order.) *)
Definition UpdateItem (input : UpdateItem.Input) : Client Output :=
  fun t =>
    match parse_update (UpdateItem.UpdateExpression input) with
    | None => refuse InvalidExpression t
    | Some clauses =>
        if Nat.eqb (size (UpdateItem.ExpressionAttributeNames input)) 0
           || Nat.eqb (size (UpdateItem.ExpressionAttributeValues input)) 0
        then refuse EmptyExpressionMap t
        else
          match mapM (resolve_assignment
                        (UpdateItem.ExpressionAttributeNames input)
                        (UpdateItem.ExpressionAttributeValues input))
                     clauses with
          | None => refuse UndefinedPlaceholder t
          | Some assignments =>
              SET (UpdateItem.Key input) (UpdateItem.UpdateExpression input)
                  assignments t
          end
    end.

(** Scan answers the whole table (in one page). *)
Definition Scan : Client Output :=
  fun t => (Ok {| Item_ := None; Items_ := Some (map_to_list t).*2 |}, t).

(** Query: the key condition selects the item of one key, the filter
    keeps it or drops it. *)
Definition Query (input : Query.Input) : Client Output :=
  fun t =>
    match parse_key_condition (Query.KeyConditionExpression input),
          parse_contains (Query.FilterExpression input) with
    | Some (attr, key_operand), Some (path, operand) =>
        if bool_decide (attr = partition_key) then
          match Query.ExpressionAttributeValues input !! key_operand,
                Query.ExpressionAttributeValues input !! operand with
          | Some (Some (S k)), Some (Some v) =>
              if key_ok k then
                (Ok {| Item_ := None;
                       Items_ := Some
                         match t !! k with
                         | Some item =>
                             if contains (item !! path) v then [item] else []
                         | None => []
                         end |}, t)
              else refuse InvalidKeyValue t
          | Some (Some _), Some (Some _) => refuse KeySchemaMismatch t
          | Some None, _ | _, Some None => refuse InvalidParameter t
          | _, _ => refuse UndefinedPlaceholder t
          end
        else refuse KeySchemaMismatch t
    | _, _ => refuse InvalidExpression t
    end.

(** [ddbClient.send(command)]. *)
Definition send (command : Command) : Client Output :=
  match command with
  | GetItemCommand Key => GetItem Key
  | PutItemCommand item => PutItem item
  | DeleteItemCommand Key => DeleteItem Key
  | UpdateItemCommand input => UpdateItem input
  | ScanCommand => Scan
  | QueryCommand input => Query input
  end.

End Store.

End DynamoDB.

(** ** The product service: [src/product/index_after.js] *)

Module Product.
Import Js DynamoDB.

Record PathParameters : Type := { id : option string }.
Record QueryStringParameters : Type := { category : option string }.

(** The Lambda event.  [body] is the request text as [JSON.parse] reads
    it: [None] when [JSON.parse] throws. *)
Record Event : Type := {
  httpMethod : string;
  pathParameters : option PathParameters;
  queryStringParameters : option QueryStringParameters;
  body : option Value
}.

(** [JSON.parse(event.body)]. *)
Definition JSON_parse (text : option Value) : Result Value :=
  match text with
  | Some v => Ok v
  | None => Throw SyntaxError
  end.

(** [event.pathParameters.id] and [event.queryStringParameters.category]:
    the outer object may be null, the inner field undefined. *)
Definition pathParameters_id (event : Event) : Result (option string) :=
  match pathParameters event with
  | Some p => Ok (id p)
  | None => Throw TypeError
  end.

Definition queryStringParameters_category (event : Event)
  : Result (option string) :=
  match queryStringParameters event with
  | Some q => Ok (category q)
  | None => Throw TypeError
  end.

(** [marshall] of an object some of whose values may be undefined, on
    which it throws as it does on a number it does not take. *)
Definition marshall_defined (obj : list (string * option Value))
  : Result Item :=
  match mapM (fun kv : string * option Value =>
                pair kv.1 <$> (kv.2 ≫= convertToAttr)) obj with
  | Some attributes => Ok (list_to_map attributes)
  | None => Throw MarshallError
  end.

(** The update expression for the keys of a body:
    [SET #key0 = :value0, #key1 = :value1, ...]. *)
Definition UpdateExpression_for (objKeys : list string) : string :=
  "SET " +:+
  join ", " (map_indexed
               (fun _ index =>
                  "#key" +:+ pretty index +:+ " = :value" +:+ pretty index)
               objKeys).

(** [productRequest.id = productId] and [productRequest || {}].  Only an
    object gets through: setting a property of [null] throws; on a
    number, a boolean or a string the assignment is dropped, and what
    [marshall] then makes of it (or of [{}] in its place), as of an
    array, is not an item with its key, which the store refuses. *)
Definition with_id (productRequest : Value) (productId : string)
  : Result (list (string * Value)) :=
  match productRequest with
  | JObject fields => Ok (set_prop "id" (JString productId) fields)
  | JNull => Throw TypeError
  | _ => Throw (ValidationException InvalidParameter)
  end.

(** What the handler puts under [body] in its answer. *)
Inductive Body : Type :=
| Product (p : gmap string Value)
| Products (ps : list (gmap string Value))
| Metadata (out : Output).

Inductive Response : Type :=
| Succeeded (method : string) (body : Body)
| Failed (e : Exception).

Definition statusCode (r : Response) : Z :=
  match r with
  | Succeeded _ _ => 200
  | Failed _ => 500
  end.

Definition fmap_client {A B} (f : A -> B) (m : Client A) : Client B :=
  bind m (fun a => ret (f a)).

Section Handlers.
Context {limits : Limits}.

Definition getProduct (productId : string) : Client (gmap string Value) :=
  try_catch
    (bind (lift (marshall [("id", JString productId)])) (fun Key =>
     bind (send (GetItemCommand Key)) (fun out =>
     ret match Item_ out with
         | Some Item => unmarshall Item
         | None => ∅
         end)))
    (fun e => throw e).

(** The products, or [{}] when the answer has no [Items]. *)
Definition getAllProducts : Client (list (gmap string Value) + gmap string Value) :=
  try_catch
    (bind (send ScanCommand) (fun out =>
     ret match Items_ out with
         | Some Items => inl (map unmarshall Items)
         | None => inr ∅
         end))
    (fun e => throw e).

(** [uuidv4] is the identifier that the call of [uuidv4()] returns. *)
Definition createProduct (uuidv4 : string) (event : Event) : Client Output :=
  try_catch
    (bind (lift (JSON_parse (body event))) (fun productRequest =>
     let productId := uuidv4 in
     bind (lift (with_id productRequest productId)) (fun productRequest =>
     bind (lift (marshall productRequest)) (fun Item =>
     send (PutItemCommand Item)))))
    (fun e => throw e).

Definition deleteProduct (productId : string) : Client Output :=
  try_catch
    (bind (lift (marshall [("id", JString productId)])) (fun Key =>
     send (DeleteItemCommand Key)))
    (fun e => throw e).

Definition updateProduct (event : Event) : Client Output :=
  try_catch
    (bind (lift (JSON_parse (body event))) (fun requestBody =>
     bind (lift (Object_keys requestBody)) (fun objKeys =>
     bind (lift (pathParameters_id event)) (fun id =>
     bind (lift (marshall_defined [("id", JString <$> id)])) (fun Key =>
     bind (lift (marshall_defined
                   (reduce (fun acc key index =>
                              set_prop (":value" +:+ pretty index)
                                       (member requestBody key) acc)
                           [] objKeys))) (fun values =>
     send (UpdateItemCommand {|
       UpdateItem.Key := Key;
       UpdateItem.UpdateExpression := UpdateExpression_for objKeys;
       UpdateItem.ExpressionAttributeNames :=
         list_to_map (reduce (fun acc key index =>
                                set_prop ("#key" +:+ pretty index) key acc)
                             [] objKeys);
       UpdateItem.ExpressionAttributeValues := values
     |})))))))
    (fun e => throw e).

Definition getProductsByCategory (event : Event)
  : Client (list (gmap string Value)) :=
  try_catch
    (bind (lift (pathParameters_id event)) (fun productId =>
     bind (lift (queryStringParameters_category event)) (fun category =>
     bind (send (QueryCommand {|
       Query.KeyConditionExpression := "id = :productId";
       Query.FilterExpression := "contains (category, :category)";
       Query.ExpressionAttributeValues :=
         {[ ":productId" := S <$> productId; ":category" := S <$> category ]}
     |})) (fun out =>
     match Items_ out with
     | Some Items => ret (map unmarshall Items)
     | None => throw TypeError
     end))))
    (fun e => throw e).

(** The [switch] of the handler.  An id that is undefined reaches
    [marshall] inside the operation, which throws on it. *)
Definition route (uuidv4 : string) (event : Event) : Client Body :=
  if decide (httpMethod event = "GET") then
    match queryStringParameters event, pathParameters event with
    | Some _, _ => fmap_client Products (getProductsByCategory event)
    | None, Some p =>
        match id p with
        | Some productId => fmap_client Product (getProduct productId)
        | None => throw MarshallError
        end
    | None, None =>
        fmap_client (fun r => match r with
                              | inl ps => Products ps
                              | inr p => Product p
                              end) getAllProducts
    end
  else if decide (httpMethod event = "POST") then
    fmap_client Metadata (createProduct uuidv4 event)
  else if decide (httpMethod event = "DELETE") then
    bind (lift (pathParameters_id event)) (fun productId =>
    match productId with
    | Some productId => fmap_client Metadata (deleteProduct productId)
    | None => throw MarshallError
    end)
  else if decide (httpMethod event = "PUT") then
    fmap_client Metadata (updateProduct event)
  else throw (UnsupportedRoute (httpMethod event)).

(** [exports.handler]: 200 with the result, 500 with the exception.  (The
    answer is given as a value; [JSON.stringify] of it does not fail on
    what the operations return from this table.) *)
Definition handler (uuidv4 : string) (event : Event) (t : Table)
  : Response * Table :=
  match route uuidv4 event t with
  | (Ok body, t') => (Succeeded (httpMethod event) body, t')
  | (Throw e, t') => (Failed e, t')
  end.

End Handlers.

End Product.

(** ** Checkout

    The basket service itself ([src/basket/index.js]) is not among the
    sources; its checkout is taken from the design: the data of section
    3, the state machine of section 4.3 and the failures of section 7.
    Prices are integers. *)

Module Basket.

Local Open Scope Z_scope.

(** Modelled from the spec: a basket line (section 3, Basket). *)
Record BasketItem : Type := {
  productId : string;
  productName : string;
  quantity : Z;
  price : Z;
  color : string
}.

(** Modelled from the spec: the basket of a user (section 3). *)
Record Basket : Type := {
  userName : string;
  items : option (list BasketItem)   (* [None]: the item list is null *)
}.

(** Modelled from the spec: the checkout request, the user name and the
    buyer and payment fields (section 6); [None] for a user name that
    is absent. *)
Record CheckoutRequest : Type := {
  request_userName : option string;
  firstName : string;
  lastName : string;
  email : string;
  address : string;
  paymentMethod : string
}.

(** Modelled from the spec: the wire payload of a checkout (section 3,
    CheckoutEvent). *)
Record CheckoutEvent : Type := {
  event_userName : string;
  event_firstName : string;
  event_lastName : string;
  event_email : string;
  event_address : string;
  event_paymentMethod : string;
  totalPrice : Z;
  event_items : list BasketItem
}.

(** Modelled from the spec: the configuration of the publisher (section
    6), and an event as [publish] puts it on the bus. *)
Record Config : Type := {
  busName : string;
  sourceTag : string;
  detailTypeTag : string
}.

Record Envelope : Type := {
  EventBusName : string;
  Source : string;
  DetailType : string;
  Detail : CheckoutEvent
}.

(** Modelled from the spec: the calls a checkout makes to its
    collaborators, the store and the publisher of section 6, each with
    whether it succeeded. *)
Inductive Call : Type :=
| GetBasket (user : string) (ok : bool)
| Publish (payload : CheckoutEvent) (ok : bool)
| DeleteBasket (user : string) (ok : bool).

(** Modelled from the spec: the basket store, the events the bus has
    accepted and the calls made so far, oldest first. *)
Record World : Type := {
  baskets : gmap string Basket;
  bus : list Envelope;
  calls : list Call
}.

(** Modelled from the spec: which collaborator calls fail during one
    checkout (section 7, DependencyFailure). *)
Record Faults : Type := {
  get_fails : bool;
  publish_fails : bool;
  delete_fails : bool
}.

(** Modelled from the spec: the failures of section 7, the states of
    section 4.3 and what the caller is told. *)
Inductive Failure : Type :=
| ValidationError
| BusinessError
| DependencyFailure.

Inductive State : Type :=
| RECEIVED (request : CheckoutRequest)
| VALIDATED (user : string) (request : CheckoutRequest)
| BASKET_LOADED (user : string) (request : CheckoutRequest)
                (lines : list BasketItem)
| PAYLOAD_BUILT (user : string) (payload : CheckoutEvent)
| EVENT_PUBLISHED (user : string)
| BASKET_CLEARED
| BASKET_LINGERS            (* published, but the delete failed *)
| FAILED (why : Failure).

Inductive Outcome : Type :=
| Success
| SuccessWithWarning
| Failed (why : Failure)
| Unfinished.

(** Modelled from the spec: the price aggregation of the payload step
    ([prepareOrderPayload] of [src/basket/index.js], which is not among
    the sources): the sum of the [price] field of each line, taken once
    per line. *)
Definition compute_totalPrice (lines : list BasketItem) : Z :=
  foldl (fun total line => total + price line) 0 lines.

(** Modelled from the spec: the payload of the checkout event, the
    request fields and the basket lines under the user name. *)
Definition prepareOrderPayload (user : string) (request : CheckoutRequest)
           (lines : list BasketItem) : CheckoutEvent :=
  {| event_userName := user;
     event_firstName := firstName request;
     event_lastName := lastName request;
     event_email := email request;
     event_address := address request;
     event_paymentMethod := paymentMethod request;
     totalPrice := compute_totalPrice lines;
     event_items := lines |}.

(** Modelled from the spec: a call is appended to the calls made. *)
Definition record_call (c : Call) (w : World) : World :=
  {| baskets := baskets w; bus := bus w; calls := calls w ++ [c] |}.

(** Modelled from the spec: one transition of the checkout state machine
    of section 4.3 ([checkoutBasket] of [src/basket/index.js], which is
    not among the sources).  Validation wants a user name that is there
    and not empty; loading wants a basket with at least one line;
    publishing puts the payload on the configured bus; the basket is
    deleted from [EVENT_PUBLISHED] only, and a delete that fails leaves a
    lingering basket and a warning. *)
Definition step (cfg : Config) (f : Faults) (w : World) (s : State)
  : World * State :=
  match s with
  | RECEIVED request =>
      match request_userName request with
      | Some user =>
          if decide (user = "") then (w, FAILED ValidationError)
          else (w, VALIDATED user request)
      | None => (w, FAILED ValidationError)
      end
  | VALIDATED user request =>
      if get_fails f
      then (record_call (GetBasket user false) w, FAILED DependencyFailure)
      else
        let w' := record_call (GetBasket user true) w in
        match baskets w !! user with
        | Some basket =>
            match items basket with
            | Some (line :: lines) =>
                (w', BASKET_LOADED user request (line :: lines))
            | Some [] | None => (w', FAILED BusinessError)
            end
        | None => (w', FAILED BusinessError)
        end
  | BASKET_LOADED user request lines =>
      (w, PAYLOAD_BUILT user (prepareOrderPayload user request lines))
  | PAYLOAD_BUILT user payload =>
      if publish_fails f
      then (record_call (Publish payload false) w, FAILED DependencyFailure)
      else
        ({| baskets := baskets w;
            bus := bus w ++ [{| EventBusName := busName cfg;
                                Source := sourceTag cfg;
                                DetailType := detailTypeTag cfg;
                                Detail := payload |}];
            calls := calls w ++ [Publish payload true] |},
         EVENT_PUBLISHED user)
  | EVENT_PUBLISHED user =>
      if delete_fails f
      then (record_call (DeleteBasket user false) w, BASKET_LINGERS)
      else
        ({| baskets := delete user (baskets w);
            bus := bus w;
            calls := calls w ++ [DeleteBasket user true] |},
         BASKET_CLEARED)
  | BASKET_CLEARED | BASKET_LINGERS | FAILED _ => (w, s)
  end.

(** Modelled from the spec: [n] transitions in a row. *)
Fixpoint run (cfg : Config) (f : Faults) (n : nat) (w : World) (s : State)
  : World * State :=
  match n with
  | O => (w, s)
  | Datatypes.S n' => let (w', s') := step cfg f w s in run cfg f n' w' s'
  end.

(** Modelled from the spec: what the caller is told in a state; the
    lingering basket is a success with a warning (section 7,
    PartialSuccess). *)
Definition outcome (s : State) : Outcome :=
  match s with
  | BASKET_CLEARED => Success
  | BASKET_LINGERS => SuccessWithWarning
  | FAILED why => Failed why
  | _ => Unfinished
  end.

(** Modelled from the spec: the checkout operation, the five transitions
    from [RECEIVED] to [BASKET_CLEARED] in their order. *)
Definition checkout (cfg : Config) (f : Faults) (request : CheckoutRequest)
           (w : World) : World * Outcome :=
  let (w', s) := run cfg f 5 w (RECEIVED request) in (w', outcome s).

(** Modelled from the spec: the basket store's operations [put] (full
    replace) and [get]. *)
Definition put (b : Basket) (w : World) : World :=
  {| baskets := <[userName b := b]> (baskets w); bus := bus w; calls := calls w |}.

Definition get (user : string) (w : World) : option Basket :=
  baskets w !! user.

(** The sum of the line prices, written on the list of prices. *)
Definition sum_of_prices (lines : list BasketItem) : Z :=
  foldr Z.add 0 (price <$> lines).

End Basket.

(** ** Auxiliary notions of the statements *)

Import Js DynamoDB.

(** The placeholders [updateProduct] writes for its [index]-th field. *)
Definition name_placeholder (index : nat) : string := "#key" +:+ pretty index.
Definition value_placeholder (index : nat) : string := ":value" +:+ pretty index.

(** The assignments an update of the fields of [requestBody] asks for:
    each key [Object.keys] lists, with the attribute value of what the
    body holds under it; none when one of the values does not marshall. *)
Definition assignments_of (requestBody : Value)
  : option (list (string * AttributeValue)) :=
  mapM (fun key => pair key <$> (member requestBody key ≫= convertToAttr))
       (own_entries requestBody).*1.

(** [sub] is a substring of [s]. *)
Definition substring_of (sub s : string) : Prop :=
  exists before after, s = before +:+ sub +:+ after.

(** The object [p] is the record of the item: it has the attributes of
    the item and no others, each with the value that marshalls to the
    stored one. *)
Definition record_of (item : Item) (p : gmap string Value) : Prop :=
  forall attr v,
    p !! attr = Some v <->
    exists a, item !! attr = Some a /\ convertToAttr v = Some a.

(** A computation that keeps the key invariant of the table. *)
Definition keeps_wf {A} (m : Client A) : Prop :=
  forall t, table_wf t -> table_wf (m t).2.

(** A computation that reads the table at most. *)
Definition reads_only {A} (m : Client A) : Prop :=
  forall t, (m t).2 = t.

(** A computation that throws only on a table it has not changed. *)
Definition fails_clean {A} (m : Client A) : Prop :=
  forall t e t', m t = (Throw e, t') -> t' = t.


(** The methods the handler has a case for. *)
Definition supported (method : string) : Prop :=
  method = "GET" \/ method = "POST" \/ method = "DELETE" \/ method = "PUT".


(** A store without limits on sizes, for the examples. *)
Definition unlimited : Limits :=
  {| item_ok := fun _ => true; expression_ok := fun _ => true |}.

(** The numbers of the examples. *)
Definition integer (z : Z) : Number := Finite z 0.
Definition n_9_99 : SafeNumber := {| number := Finite 999 (-2); number_safe := I |}.

(** A small catalog and the requests used as examples. *)
Definition widget : Item :=
  {[ "id" := S "p-1"; "name" := S "Widget"; "price" := N n_9_99;
     "category" := S "Tools" ]}.

Definition catalog : Table := {[ "p-1" := widget ]}.

(** A product whose category is a list of tags. *)
Definition tagged : Item :=
  {[ "id" := S "p-2"; "category" := L [S "Tools"; S "Garden"] ]}.

Definition tagged_catalog : Table := {[ "p-2" := tagged ]}.

Definition request (method : string) (productId : string)
           (requestBody : option Value) : Product.Event :=
  {| Product.httpMethod := method;
     Product.pathParameters := Some {| Product.id := Some productId |};
     Product.queryStringParameters := None;
     Product.body := requestBody |}.

Definition category_query (productId category : string) : Product.Event :=
  {| Product.httpMethod := "GET";
     Product.pathParameters := Some {| Product.id := Some productId |};
     Product.queryStringParameters :=
       Some {| Product.category := Some category |};
     Product.body := None |}.

(** An identifier as [uuidv4()] makes them. *)
Definition sample_uuid : string := "3b241101-e2bb-4255-8caf-4136c566a962".

(** The checkout of scenario B: alice's basket of two lines, priced 10
    and 20, and her request. *)
Definition shop : Basket.Config :=
  {| Basket.busName := "SwnEventBus";
     Basket.sourceTag := "com.swn.basket.checkoutbasket";
     Basket.detailTypeTag := "CheckoutBasket" |}.

Definition line (productId : string) (quantity price : Z) : Basket.BasketItem :=
  {| Basket.productId := productId; Basket.productName := "";
     Basket.quantity := quantity; Basket.price := price; Basket.color := "" |}.

Definition alice_basket : Basket.Basket :=
  {| Basket.userName := "alice";
     Basket.items := Some [line "p1" 1 10; line "p2" 1 20] |}.

Definition alice_request : Basket.CheckoutRequest :=
  {| Basket.request_userName := Some "alice"; Basket.firstName := "A";
     Basket.lastName := ""; Basket.email := ""; Basket.address := "";
     Basket.paymentMethod := "" |}.

Definition empty_world : Basket.World :=
  {| Basket.baskets := ∅; Basket.bus := []; Basket.calls := [] |}.

Definition no_faults : Basket.Faults :=
  {| Basket.get_fails := false; Basket.publish_fails := false;
     Basket.delete_fails := false |}.

Definition bus_down : Basket.Faults :=
  {| Basket.get_fails := false; Basket.publish_fails := true;
     Basket.delete_fails := false |}.

(** The lines a checkout finds for a user: none when there is no basket,
    or a basket whose item list is null or empty. *)
Definition lines_of (w : Basket.World) (user : string) : list Basket.BasketItem :=
  match Basket.baskets w !! user with
  | Some basket => default [] (Basket.items basket)
  | None => []
  end.

(** ** Properties of the JavaScript layer *)

Section JsFacts.
Import Js.

Lemma Value_ind (P : Value -> Prop) :
  P JNull -> (forall b, P (JBool b)) -> (forall n, P (JNumber n)) ->
  (forall s, P (JString s)) ->
  (forall l, Forall P l -> P (JArray l)) ->
  (forall fields, Forall (fun kv => P kv.2) fields -> P (JObject fields)) ->
  forall v, P v.
Proof.
  intros Hnull Hbool Hnum Hstr Harr Hobj.
  fix IH 1. intros [ | b | n | s | l | fields].
  - exact Hnull.
  - apply Hbool.
  - apply Hnum.
  - apply Hstr.
  - apply Harr. induction l as [ | x l IHl]; constructor; [apply IH | exact IHl].
  - apply Hobj.
    induction fields as [ | [k x] fields IHf]; constructor; [apply IH | exact IHf].
Qed.

Lemma AttributeValue_ind (P : AttributeValue -> Prop) :
  (forall s, P (S s)) -> (forall n, P (N n)) -> (forall b, P (BOOL b)) ->
  P NULL ->
  (forall l, Forall P l -> P (L l)) ->
  (forall m, Forall (fun kv => P kv.2) m -> P (M m)) ->
  forall a, P a.
Proof.
  intros Hs Hn Hb Hnull Hl Hm.
  fix IH 1. intros [s | n | b | | l | m].
  - apply Hs.
  - apply Hn.
  - apply Hb.
  - exact Hnull.
  - apply Hl. induction l as [ | x l IHl]; constructor; [apply IH | exact IHl].
  - apply Hm.
    induction m as [ | [k x] m IHm]; constructor; [apply IH | exact IHm].
Qed.

Lemma safe_number_number (n : SafeNumber) : safe_number (number n) = Some n.
Proof.
  destruct n as [n Hn]. unfold safe_number. simpl.
  destruct (decide (Is_true (Number_safe n))) as [H | H]; [ | done].
  do 2 f_equal. apply proof_irrel.
Qed.

Lemma safe_number_Some (n : Number) (s : SafeNumber) :
  safe_number n = Some s -> number s = n.
Proof.
  unfold safe_number. destruct (decide _); [ | done]. by intros [= <-].
Qed.

(** What is read back is what was written, and the other way round. *)
Lemma convertToNative_convertToAttr (v : Value) (a : AttributeValue) :
  convertToAttr v = Some a -> convertToNative a = v.
Proof.
  revert a.
  induction v as [ | b | n | s | l IHl | fields IHf] using Value_ind;
    intros a; simpl.
  - by intros [= <-].
  - by intros [= <-].
  - destruct (safe_number n) as [s | ] eqn:Hs; [ | done].
    intros [= <-]. simpl. f_equal. by apply safe_number_Some.
  - by intros [= <-].
  - match goal with |- L <$> ?e = _ -> _ => destruct e as [r | ] eqn:Hr end;
      [ | done].
    intros [= <-]. simpl. f_equal.
    revert r Hr. induction IHl as [ | x l Hx _ IH]; intros r Hr.
    + by injection Hr as <-.
    + destruct (convertToAttr x) as [a | ] eqn:Ha; [ | done].
      match type of Hr with
      | match ?e with _ => _ end = _ => destruct e as [r' | ] eqn:Hr'
      end; [ | done].
      injection Hr as <-. simpl. by rewrite (Hx a), (IH r').
  - match goal with |- M <$> ?e = _ -> _ => destruct e as [r | ] eqn:Hr end;
      [ | done].
    intros [= <-]. simpl. f_equal.
    revert r Hr. induction IHf as [ | [k x] fields Hx _ IH]; intros r Hr.
    + by injection Hr as <-.
    + destruct (convertToAttr x) as [a | ] eqn:Ha; [ | done].
      match type of Hr with
      | match ?e with _ => _ end = _ => destruct e as [r' | ] eqn:Hr'
      end; [ | done].
      injection Hr as <-. simpl. simpl in Hx. by rewrite (Hx a), (IH r').
Qed.

Lemma convertToAttr_convertToNative (a : AttributeValue) :
  convertToAttr (convertToNative a) = Some a.
Proof.
  induction a as [s | n | b | | l IHl | m IHm] using AttributeValue_ind;
    simpl; try reflexivity.
  - by rewrite safe_number_number.
  - match goal with |- L <$> ?e = _ => assert (e = Some l) as -> end; [ | done].
    induction IHl as [ | x l Hx _ IH]; simpl; [done | ].
    by rewrite Hx, IH.
  - match goal with |- M <$> ?e = _ => assert (e = Some m) as -> end; [ | done].
    induction IHm as [ | [k x] m Hx _ IH]; simpl; [done | ].
    simpl in Hx. by rewrite Hx, IH.
Qed.

Lemma list_to_map_set_prop {A} (k : string) (v : A) (o : list (string * A)) :
  (list_to_map (set_prop k v o) : gmap string A) = <[k := v]> (list_to_map o).
Proof.
  induction o as [ | [k' v'] o IH]; simpl; [done | ].
  destruct (decide (k' = k)) as [-> | Hne]; simpl.
  - by rewrite insert_insert_eq.
  - rewrite IH. by apply insert_insert_ne.
Qed.

Lemma set_prop_fresh {A} (k : string) (v : A) (o : list (string * A)) :
  k ∉ o.*1 -> set_prop k v o = (o ++ [(k, v)])%list.
Proof.
  induction o as [ | [k' v'] o IH]; simpl; intros Hk; [done | ].
  rewrite not_elem_of_cons in Hk. destruct Hk as [Hne Hk].
  destruct (decide (k' = k)) as [-> | _]; [done | ].
  by rewrite IH.
Qed.

Lemma get_prop_elem_of {A} (k : string) (o : list (string * A)) :
  k ∈ o.*1 -> is_Some (get_prop k o).
Proof.
  induction o as [ | [k' v'] o IH]; simpl; intros Hk.
  - by apply elem_of_nil in Hk.
  - destruct (decide (k' = k)); [by eexists | ].
    apply IH. apply elem_of_cons in Hk as [-> | Hk]; done.
Qed.

Lemma get_prop_list_to_map {A} (k : string) (o : list (string * A)) :
  get_prop k o = (list_to_map o : gmap string A) !! k.
Proof.
  induction o as [ | [k' v'] o IH]; simpl; [done | ].
  destruct (decide (k' = k)) as [-> | Hne].
  - by rewrite lookup_insert_eq.
  - by rewrite lookup_insert_ne.
Qed.

(** [marshall] succeeds on the objects all of whose values convert, and
    gives their attributes. *)
Lemma marshall_Ok (obj : list (string * Value)) (item : Item) :
  marshall obj = Ok item <->
  exists attributes,
    mapM marshall_entry obj = Some attributes /\ item = list_to_map attributes.
Proof.
  unfold marshall. destruct (mapM marshall_entry obj) as [attributes | ].
  - split.
    + intros [= <-]. by exists attributes.
    + intros (? & [= <-] & ->). done.
  - split; [done | ]. by intros (? & ? & _).
Qed.

Lemma marshall_Throw (obj : list (string * Value)) (e : Exception) :
  marshall obj = Throw e -> e = MarshallError /\ mapM marshall_entry obj = None.
Proof.
  unfold marshall. destruct (mapM marshall_entry obj); [done | ].
  by intros [= <-].
Qed.

Lemma marshall_entry_Some (kv : string * Value) (ka : string * AttributeValue) :
  marshall_entry kv = Some ka <-> ka.1 = kv.1 /\ convertToAttr kv.2 = Some ka.2.
Proof.
  destruct kv as [k v], ka as [k' a]. unfold marshall_entry. simpl.
  destruct (convertToAttr v) as [a' | ]; simpl; split.
  - by intros [= <- <-].
  - by intros [<- [= <-]].
  - done.
  - by intros [_ ?].
Qed.

Lemma marshall_entries_keys (obj : list (string * Value))
      (attributes : list (string * AttributeValue)) :
  mapM marshall_entry obj = Some attributes -> attributes.*1 = obj.*1.
Proof.
  intros H%mapM_Some_1.
  induction H as [ | kv ka obj attributes [Hk _]%marshall_entry_Some _ IH];
    [done | ].
  rewrite !fmap_cons. by f_equal.
Qed.

Lemma unmarshall_marshall (obj : list (string * Value)) (item : Item) :
  marshall obj = Ok item -> unmarshall item = list_to_map obj.
Proof.
  intros (attributes & H%mapM_Some_1 & ->)%marshall_Ok. unfold unmarshall.
  induction H as [ | [k v] [k' a] obj attributes
                     [Hk Ha]%marshall_entry_Some _ IH]; simpl.
  - apply fmap_empty.
  - simpl in Hk, Ha. subst k'.
    by rewrite fmap_insert, IH, (convertToNative_convertToAttr v a).
Qed.

Lemma record_of_unmarshall (item : Item) : record_of item (unmarshall item).
Proof.
  intros attr v. unfold unmarshall. rewrite lookup_fmap. split.
  - destruct (item !! attr) as [a | ]; [ | done]. intros [= <-].
    exists a. split; [done | ]. apply convertToAttr_convertToNative.
  - intros (a & -> & Ha). simpl. f_equal.
    by apply convertToNative_convertToAttr.
Qed.

(** An item has one record only. *)
Lemma record_of_unique (item : Item) (p : gmap string Value) :
  record_of item p -> p = unmarshall item.
Proof.
  intros Hp. apply map_eq. intros attr.
  destruct (p !! attr) as [v | ] eqn:Hv.
  - apply Hp in Hv as (a & Ha & Hva). unfold unmarshall.
    rewrite lookup_fmap, Ha. simpl. f_equal. symmetry.
    by apply convertToNative_convertToAttr.
  - unfold unmarshall. rewrite lookup_fmap.
    destruct (item !! attr) as [a | ] eqn:Ha; [ | done].
    assert (p !! attr = Some (convertToNative a)) as Hp'.
    { apply Hp. exists a. split; [done | apply convertToAttr_convertToNative]. }
    congruence.
Qed.

End JsFacts.

(** ** Properties of the expression reader *)

Section ExpressionFacts.

Lemma append_cons (c : ascii) (a b : string) :
  String c a +:+ b = String c (a +:+ b).
Proof. reflexivity. Qed.

Lemma append_nil_l (b : string) : "" +:+ b = b.
Proof. reflexivity. Qed.

Lemma append_nil_r (a : string) : a +:+ "" = a.
Proof. induction a as [ | x a IH]; [done | by rewrite append_cons, IH]. Qed.

Lemma append_assoc (a b c : string) : (a +:+ b) +:+ c = a +:+ b +:+ c.
Proof.
  induction a as [ | x a IH]; [done | by rewrite !append_cons, IH].
Qed.

Lemma word_app (a b : string) : word (a +:+ b) = word a && word b.
Proof.
  induction a as [ | x a IH]; [done | ].
  rewrite append_cons. simpl. by rewrite IH, andb_assoc.
Qed.

Lemma word_pretty_N_go (x : BinNums.N) (s : string) :
  word s = true -> word (pretty_N_go x s) = true.
Proof.
  revert s. induction (N.lt_wf_0 x) as [x _ IH]. intros s Hs.
  destruct (decide (x = 0)%N) as [-> | Hx]; [by rewrite pretty_N_go_0 | ].
  rewrite pretty_N_go_step by lia.
  apply IH; [apply N.div_lt; lia | ].
  simpl. rewrite Hs, andb_true_r.
  unfold pretty_N_char. by repeat case_match.
Qed.

Lemma word_pretty (index : nat) : word (pretty index) = true.
Proof.
  unfold pretty, pretty_nat, pretty, pretty_N.
  case_decide; [done | ]. by apply word_pretty_N_go.
Qed.

(** A word is read in one piece. *)
Lemma tokenize_from_word (w cur rest : string) :
  word w = true ->
  tokenize_from cur (w +:+ rest) = tokenize_from (cur +:+ w) rest.
Proof.
  revert cur. induction w as [ | c w IH]; intros cur Hw.
  - by rewrite append_nil_l, append_nil_r.
  - simpl in Hw. apply andb_true_iff in Hw as [Hc Hw].
    unfold word_char in Hc. apply andb_true_iff in Hc as [Hsp Hpu].
    apply negb_true_iff, bool_decide_eq_false in Hsp.
    apply bool_decide_eq_true in Hpu.
    rewrite append_cons. simpl.
    destruct (decide (c = " "%char)); [done | ]. rewrite Hpu.
    rewrite IH by done. f_equal.
    by rewrite append_assoc.
Qed.

Lemma tokenize_from_space (cur rest : string) :
  tokenize_from cur (String " " rest) = (flush cur ++ tokenize_from "" rest)%list.
Proof. reflexivity. Qed.

Lemma tokenize_from_equals (cur rest : string) :
  tokenize_from cur (String "=" rest)
  = (flush cur ++ TEq :: tokenize_from "" rest)%list.
Proof. reflexivity. Qed.

Lemma tokenize_from_comma (cur rest : string) :
  tokenize_from cur (String "," rest)
  = (flush cur ++ TComma :: tokenize_from "" rest)%list.
Proof. reflexivity. Qed.

Lemma word_name_placeholder (index : nat) :
  word (name_placeholder index) = true.
Proof. unfold name_placeholder. by rewrite word_app, word_pretty. Qed.

Lemma word_value_placeholder (index : nat) :
  word (value_placeholder index) = true.
Proof. unfold value_placeholder. by rewrite word_app, word_pretty. Qed.

(** The text of one assignment of [updateProduct], as the reader sees it
    in front of whatever follows. *)
Lemma tokenize_assignment (index : nat) (rest : string) :
  tokenize_from ""
    (("#key" +:+ pretty index +:+ " = :value" +:+ pretty index) +:+ rest)
  = TWord (name_placeholder index) :: TEq
      :: tokenize_from (value_placeholder index) rest.
Proof.
  change ("#key" +:+ pretty index +:+ " = :value" +:+ pretty index)
    with (name_placeholder index +:+ " = " +:+ value_placeholder index).
  rewrite !append_assoc.
  rewrite tokenize_from_word by apply word_name_placeholder.
  rewrite append_nil_l, !append_cons, append_nil_l.
  rewrite tokenize_from_space, tokenize_from_equals, tokenize_from_space.
  rewrite tokenize_from_word by apply word_value_placeholder.
  reflexivity.
Qed.

(** The assignments [updateProduct] joins with commas read back as the
    pairs of placeholders they are made of. *)
Lemma parse_assignments_joined {A} (keys : list A) (start : nat) :
  keys <> [] ->
  parse_assignments
    (tokenize (join ", " (imap (fun i _ =>
       "#key" +:+ pretty (start + i) +:+ " = :value" +:+ pretty (start + i))
       keys)))
  = Some (imap (fun i _ => (name_placeholder (start + i),
                            value_placeholder (start + i))) keys).
Proof.
  revert start. induction keys as [ | key keys IH]; intros start Hne; [done | ].
  clear Hne.
  rewrite !imap_cons, Nat.add_0_r.
  rewrite (imap_ext _ (fun i _ => "#key" +:+ pretty (Datatypes.S start + i)
                                  +:+ " = :value" +:+ pretty (Datatypes.S start + i)))
    by (intros; simpl; by rewrite Nat.add_succ_r).
  rewrite (imap_ext ((fun i _ => (name_placeholder (start + i),
                                  value_placeholder (start + i))) ∘ Datatypes.S)
             (fun i _ => (name_placeholder (Datatypes.S start + i),
                          value_placeholder (Datatypes.S start + i))))
    by (intros; simpl; by rewrite Nat.add_succ_r).
  destruct keys as [ | key' keys].
  - unfold tokenize, join. simpl imap. simpl String.concat.
    rewrite <- (append_nil_r (_ +:+ _ +:+ _ +:+ _)).
    rewrite tokenize_assignment. reflexivity.
  - specialize (IH (Datatypes.S start) ltac:(done)).
    unfold tokenize, join in *.
    set (rest := imap _ (key' :: keys)) in *.
    assert (Hrest : exists x xs, rest = x :: xs) by (subst rest; rewrite imap_cons; eauto).
    destruct Hrest as (x & xs & Hrest). clearbody rest.
    change (String.concat ", " (?c :: rest)) with
      (match rest with [] => c | _ => c +:+ ", " +:+ String.concat ", " rest end).
    rewrite Hrest at 1. rewrite tokenize_assignment.
    rewrite !append_cons, append_nil_l.
    rewrite tokenize_from_comma, tokenize_from_space.
    change (flush (value_placeholder start)) with [TWord (value_placeholder start)].
    change (parse_assignments (TWord ?p :: TEq :: ([TWord ?o] ++ TComma :: (flush "" ++ ?ts))%list))
      with (cons (p, o) <$> parse_assignments ts).
    rewrite IH. reflexivity.
Qed.

Lemma parse_update_expression (keys : list string) :
  parse_update (Product.UpdateExpression_for keys)
  = match keys with
    | [] => None
    | _ => Some (imap (fun i _ => (name_placeholder i, value_placeholder i)) keys)
    end.
Proof.
  unfold parse_update, Product.UpdateExpression_for, tokenize, map_indexed.
  rewrite !append_cons, append_nil_l.
  change (tokenize_from "" (String "S" (String "E" (String "T" (String " " ?r)))))
    with (TWord "SET" :: tokenize_from "" r).
  destruct keys as [ | key keys]; [done | ].
  exact (parse_assignments_joined (key :: keys) 0 ltac:(done)).
Qed.

End ExpressionFacts.

(** ** Properties of the placeholder maps *)

Section PlaceholderFacts.

Lemma name_placeholder_inj (i j : nat) :
  name_placeholder i = name_placeholder j -> i = j.
Proof.
  unfold name_placeholder. intros H.
  by apply (inj (String.append "#key")), (inj pretty) in H.
Qed.

Lemma value_placeholder_inj (i j : nat) :
  value_placeholder i = value_placeholder j -> i = j.
Proof.
  unfold value_placeholder. intros H.
  by apply (inj (String.append ":value")), (inj pretty) in H.
Qed.

(** [reduce] with a callback that sets one fresh property per element
    lists the properties in the order of the elements. *)
Lemma reduce_from_set_prop {A B} (ph : nat -> string) (g : A -> B)
      (l : list A) (start : nat) (acc : list (string * B)) :
  (forall i j, ph i = ph j -> i = j) ->
  (forall k, k ∈ acc.*1 -> exists j, j < start /\ k = ph j) ->
  reduce_from (fun acc key index => set_prop (ph index) (g key) acc) start acc l
  = (acc ++ imap (fun i key => (ph (start + i), g key)) l)%list.
Proof.
  intros Hinj. revert start acc.
  induction l as [ | x l IH]; intros start acc Hacc; simpl.
  - by rewrite app_nil_r.
  - rewrite IH.
    + rewrite set_prop_fresh.
      * rewrite <- app_assoc. simpl. rewrite Nat.add_0_r. do 2 f_equal.
        apply imap_ext. intros i y _. simpl. by rewrite Nat.add_succ_r.
      * intros Hin. apply Hacc in Hin as (j & Hj & Heq).
        apply Hinj in Heq. lia.
    + intros k Hk. rewrite set_prop_fresh in Hk.
      * rewrite fmap_app, elem_of_app in Hk. destruct Hk as [Hk | Hk].
        -- apply Hacc in Hk as (j & Hj & ->). exists j. split; [lia | done].
        -- apply list_elem_of_singleton in Hk as ->. exists start.
           split; [lia | done].
      * intros Hin. apply Hacc in Hin as (j & Hj & Heq).
        apply Hinj in Heq. lia.
Qed.

Lemma reduce_set_prop {A B} (ph : nat -> string) (g : A -> B) (l : list A) :
  (forall i j, ph i = ph j -> i = j) ->
  reduce (fun acc key index => set_prop (ph index) (g key) acc) [] l
  = imap (fun i key => (ph i, g key)) l.
Proof.
  intros Hinj. unfold reduce. rewrite reduce_from_set_prop; [done | done | ].
  intros k Hk. by apply elem_of_nil in Hk.
Qed.

Lemma lookup_list_to_map_imap {A B} (ph : nat -> string) (g : A -> B)
      (l : list A) (i : nat) :
  (forall i j, ph i = ph j -> i = j) ->
  (list_to_map (imap (fun i key => (ph i, g key)) l) : gmap string B) !! ph i
  = g <$> l !! i.
Proof.
  revert ph i. induction l as [ | x l IH]; intros ph i Hinj.
  - simpl. by rewrite lookup_empty.
  - rewrite imap_cons. simpl. destruct i as [ | i].
    + by rewrite lookup_insert_eq.
    + rewrite lookup_insert_ne by (intros H; by apply Hinj in H).
      apply (IH (ph ∘ Datatypes.S) i).
      intros a b H. apply Hinj in H. lia.
Qed.

End PlaceholderFacts.

(** ** Properties of the table operations *)

Section TableFacts.
Context {limits : Limits}.

Lemma marshall_id (k : string) :
  marshall [("id", JString k)] = Ok {[ partition_key := S k ]}.
Proof. reflexivity. Qed.

Lemma key_of_singleton (k : string) :
  key_of {[ partition_key := S k ]}
  = if key_ok k then Ok k else Throw (ValidationException InvalidKeyValue).
Proof.
  unfold key_of. rewrite lookup_singleton_eq.
  by rewrite map_size_singleton.
Qed.

Lemma key_of_Ok (Key : Item) (k : string) :
  key_of Key = Ok k -> key_ok k = true.
Proof.
  unfold key_of. destruct (Key !! partition_key) as [[k' | | | | | ] | ];
    try done.
  destruct (size Key =? 1)%nat; [ | done].
  destruct (key_ok k') eqn:Hk; [ | done]. by intros [= <-].
Qed.


(** A request the service refuses, or any exception before it, leaves
    the table alone: every operation either throws on the table it got
    or answers. *)
Lemma try_catch_rethrow {A} (m : Client A) (t : Table) :
  try_catch m (fun e => throw e) t = m t.
Proof. unfold try_catch, throw. by destruct (m t) as [[a | e] t']. Qed.

Lemma apply_assignments_other (item : Item)
      (assignments : list (string * AttributeValue)) (attr : string) :
  attr ∉ assignments.*1 ->
  apply_assignments item assignments !! attr = item !! attr.
Proof.
  unfold apply_assignments. revert item.
  induction assignments as [ | [a v] asg IH]; intros item Hattr; simpl; [done | ].
  rewrite fmap_cons, not_elem_of_cons in Hattr. destruct Hattr as [Hne Hattr].
  rewrite IH by done. by rewrite lookup_insert_ne.
Qed.


(** What a [SET] can do: refuse and change nothing, or apply to the item
    of the key assignments that spare the key attribute. *)
Lemma SET_cases (Key : Item) (expression : string)
      (assignments : list (string * AttributeValue)) (t : Table) :
  (exists e, SET Key expression assignments t = (Throw e, t)) \/
  (exists k,
      key_of Key = Ok k /\
      (partition_key ∉ assignments.*1) /\
      ("" ∉ assignments.*1) /\
      NoDup assignments.*1 /\
      expression_ok expression = true /\
      item_ok (apply_assignments (default {[partition_key := S k]} (t !! k))
                                 assignments) = true /\
      SET Key expression assignments t =
        (Ok metadata,
         <[k := apply_assignments (default {[partition_key := S k]} (t !! k))
                                  assignments]> t)).
Proof.
  unfold SET, refuse, throw.
  case_bool_decide as Hkey; [by left; eexists | ].
  case_bool_decide as Hname; [by left; eexists | ].
  case_bool_decide as Hnd; [ | by left; eexists].
  destruct (key_of Key) as [k | e]; [ | by left; eexists].
  destruct (expression_ok expression) eqn:Hexpr; simpl; [ | by left; eexists].
  destruct (item_ok _) eqn:Hitem; [ | by left; eexists].
  right. by exists k.
Qed.

Lemma UpdateItem_cases (input : UpdateItem.Input) (t : Table) :
  (exists e, UpdateItem input t = (Throw e, t)) \/
  (exists k assignments,
      key_of (UpdateItem.Key input) = Ok k /\
      (partition_key ∉ assignments.*1) /\
      NoDup assignments.*1 /\
      UpdateItem input t =
        (Ok metadata,
         <[k := apply_assignments (default {[partition_key := S k]} (t !! k))
                                  assignments]> t)).
Proof.
  unfold UpdateItem, refuse, throw.
  destruct (parse_update _) as [clauses | ]; [ | by left; eexists].
  destruct (_ || _); [by left; eexists | ].
  destruct (mapM _ clauses) as [assignments | ]; [ | by left; eexists].
  destruct (SET_cases (UpdateItem.Key input) (UpdateItem.UpdateExpression input)
                      assignments t)
    as [[e ->] | (k & Hk & Hid & _ & Hnd & _ & _ & ->)]; [by left; eexists | ].
  right. by exists k, assignments.
Qed.

(** The key invariant is kept by whatever is sent. *)
Lemma send_table_wf (command : Command) (t : Table) :
  table_wf t -> table_wf (send command t).2.
Proof.
  intros Hwf. destruct command as [Key | item | Key | input | | input]; simpl.
  - unfold GetItem. by destruct (key_of Key).
  - unfold PutItem, refuse, throw.
    destruct (item !! partition_key) as [[k | | | | | ] | ] eqn:Hid;
      simpl; try done.
    destruct (key_ok k) eqn:Hk; simpl; [ | done].
    case_bool_decide; [done | ].
    destruct (item_ok item); simpl; [ | done].
    intros k' item'. destruct (decide (k = k')) as [<- | Hne].
    + rewrite lookup_insert_eq. by intros [= <-].
    + rewrite lookup_insert_ne by done. apply Hwf.
  - unfold DeleteItem. destruct (key_of Key) as [k | e]; simpl; [ | done].
    intros k' item'. rewrite lookup_delete. case_decide; [done | apply Hwf].
  - destruct (UpdateItem_cases input t) as [[e ->] | (k & asg & Hk & Hid & _ & ->)];
      simpl; [done | ].
    intros k' item'. destruct (decide (k = k')) as [<- | Hne].
    + rewrite lookup_insert_eq. intros [= <-].
      rewrite apply_assignments_other by done.
      destruct (t !! k) as [old | ] eqn:Hold; simpl.
      * by apply Hwf.
      * rewrite lookup_singleton_eq. split; [done | by apply key_of_Ok in Hk].
    + rewrite lookup_insert_ne by done. apply Hwf.
  - done.
  - unfold Query, refuse, throw. repeat case_match; done.
Qed.

(** The invariant goes through the combinators the handlers are written
    with, hence through the handlers. *)
Lemma keeps_wf_ret {A} (a : A) : keeps_wf (ret a).
Proof. by intros t Hwf. Qed.

Lemma keeps_wf_throw {A} (e : Exception) : keeps_wf (@throw A e).
Proof. by intros t Hwf. Qed.

Lemma keeps_wf_lift {A} (r : Result A) : keeps_wf (lift r).
Proof. by intros t Hwf. Qed.

Lemma keeps_wf_send (command : Command) : keeps_wf (send command).
Proof. intros t Hwf. by apply send_table_wf. Qed.

Lemma keeps_wf_bind {A B} (m : Client A) (k : A -> Client B) :
  keeps_wf m -> (forall a, keeps_wf (k a)) -> keeps_wf (bind m k).
Proof.
  intros Hm Hk t Hwf. unfold bind. specialize (Hm t Hwf).
  destruct (m t) as [[a | e] t']; simpl in *; [by apply Hk | done].
Qed.

Lemma keeps_wf_try_catch {A} (m : Client A) (h : Exception -> Client A) :
  keeps_wf m -> (forall e, keeps_wf (h e)) -> keeps_wf (try_catch m h).
Proof.
  intros Hm Hh t Hwf. unfold try_catch. specialize (Hm t Hwf).
  destruct (m t) as [[a | e] t']; simpl in *; [done | by apply Hh].
Qed.

End TableFacts.

(** Takes a handler apart along its binds, handlers and matches. *)
Ltac keeps_wf :=
  repeat first
    [ apply keeps_wf_try_catch | apply keeps_wf_bind | apply keeps_wf_ret
    | apply keeps_wf_throw | apply keeps_wf_lift | apply keeps_wf_send
    | progress cbv zeta
    | match goal with |- forall _, _ => intros ? end
    | case_match ].

(** ** The request [updateProduct] sends *)

Section UpdateRequestFacts.
Import Product.

Lemma resolve_name_placeholder (names : gmap string string) (i : nat) :
  resolve_name names (name_placeholder i) = names !! name_placeholder i.
Proof. reflexivity. Qed.

Lemma resolve_value_placeholder (values : gmap string AttributeValue) (i : nat) :
  resolve_value values (value_placeholder i) = values !! value_placeholder i.
Proof. reflexivity. Qed.

Lemma mapM_cons {A B} (f : A -> option B) (x : A) (l : list A) :
  mapM f (x :: l) = y ← f x; k ← mapM f l; mret (y :: k).
Proof. reflexivity. Qed.

(** Marshalling the values under their placeholders succeeds when
    marshalling them under their keys does, with the same values. *)
Lemma mapM_imap_placeholders {A} (ph : nat -> string)
      (g : A -> option Value) (l : list A) :
  mapM (fun kv : string * option Value =>
          pair kv.1 <$> (kv.2 ≫= convertToAttr))
       (imap (fun i x => (ph i, g x)) l)
  = imap (fun i (xa : A * AttributeValue) => (ph i, xa.2))
      <$> mapM (fun x => pair x <$> (g x ≫= convertToAttr)) l.
Proof.
  revert ph. induction l as [ | x l IH]; intros ph; [done | ].
  specialize (IH (ph ∘ Datatypes.S)).
  rewrite imap_cons, !mapM_cons. unfold compose in *. cbv beta in *.
  cbn [fst snd]. rewrite IH.
  destruct (g x ≫= convertToAttr) as [a | ]; simpl; [ | done].
  by destruct (mapM _ l).
Qed.

Lemma member_defined (requestBody : Value) :
  Forall (fun key => is_Some (member requestBody key))
         (own_entries requestBody).*1.
Proof.
  apply Forall_forall. intros key Hkey. by apply get_prop_elem_of.
Qed.

Lemma assignments_of_keys (requestBody : Value)
      (assignments : list (string * AttributeValue)) :
  assignments_of requestBody = Some assignments ->
  assignments.*1 = (own_entries requestBody).*1.
Proof.
  unfold assignments_of. intros H%mapM_Some_1.
  induction H as [ | key [k a] keys assignments Hk _ IH]; [done | ].
  rewrite fmap_cons. f_equal; [ | exact IH].
  destruct (member requestBody key ≫= convertToAttr); [ | done].
  by injection Hk as <- _.
Qed.

(** The names and the values [updateProduct] passes along with its
    expression. *)
Lemma update_names (keys : list string) :
  (list_to_map (reduce (fun acc key index =>
                          set_prop ("#key" +:+ pretty index) key acc) [] keys)
     : gmap string string)
  = list_to_map (imap (fun i key => (name_placeholder i, key)) keys).
Proof.
  f_equal.
  exact (reduce_set_prop name_placeholder (fun key => key) keys
           name_placeholder_inj).
Qed.

Lemma update_values (requestBody : Value) :
  marshall_defined
    (reduce (fun acc key index =>
               set_prop (":value" +:+ pretty index) (member requestBody key) acc)
            [] (own_entries requestBody).*1)
  = match assignments_of requestBody with
    | Some assignments =>
        Ok (list_to_map
              (imap (fun i (ka : string * AttributeValue) =>
                       (value_placeholder i, ka.2)) assignments))
    | None => Throw MarshallError
    end.
Proof.
  assert (Hreduce :
    reduce (fun acc key index =>
              set_prop (":value" +:+ pretty index) (member requestBody key) acc)
           [] (own_entries requestBody).*1
    = imap (fun i key => (value_placeholder i, member requestBody key))
           (own_entries requestBody).*1)
    by exact (reduce_set_prop value_placeholder (member requestBody) _
                value_placeholder_inj).
  rewrite Hreduce. unfold marshall_defined.
  rewrite mapM_imap_placeholders. unfold assignments_of.
  by destruct (mapM _ _).
Qed.

(** With those names and values the placeholders of the expression
    resolve to the assignments of the body. *)
Lemma resolve_update_assignments {A} (l : list A) (g : A -> string)
      (h : A -> AttributeValue) :
  mapM (resolve_assignment
          (list_to_map (imap (fun i x => (name_placeholder i, g x)) l))
          (list_to_map (imap (fun i x => (value_placeholder i, h x)) l)))
       (imap (fun i _ => (name_placeholder i, value_placeholder i)) l)
  = Some ((fun x => (g x, h x)) <$> l).
Proof.
  apply mapM_Some_2, Forall2_same_length_lookup_2.
  { by rewrite length_imap, length_fmap. }
  intros i [p o] [a v]. rewrite list_lookup_imap, list_lookup_fmap.
  destruct (l !! i) as [x | ] eqn:Hx; simpl; [ | done].
  intros [= <- <-] [= <- <-]. unfold resolve_assignment. cbn [fst snd].
  rewrite resolve_name_placeholder, resolve_value_placeholder.
  rewrite (lookup_list_to_map_imap name_placeholder g)
    by apply name_placeholder_inj.
  rewrite (lookup_list_to_map_imap value_placeholder h)
    by apply value_placeholder_inj.
  by rewrite Hx.
Qed.

(** Neither map of placeholders is empty when there is a field. *)
Lemma size_placeholders {A B} (ph : nat -> string) (g : A -> B) (l : list A) :
  (forall i j, ph i = ph j -> i = j) -> l <> [] ->
  (size (list_to_map (imap (fun i x => (ph i, g x)) l) : gmap string B) =? 0)%nat
  = false.
Proof.
  intros Hinj Hl. apply Nat.eqb_neq. intros Hsize%map_size_empty_inv.
  destruct l as [ | x l]; [done | ].
  pose proof (lookup_list_to_map_imap ph g (x :: l) 0 Hinj) as Hlookup.
  rewrite Hsize, lookup_empty in Hlookup. discriminate Hlookup.
Qed.

End UpdateRequestFacts.

(** ** What the operations of the product service compute *)

Section ProductFacts.
Import Product.
Context {limits : Limits}.

Lemma Object_keys_defined (v : Value) :
  v <> JNull -> Object_keys v = Ok (own_entries v).*1.
Proof. by destruct v. Qed.

(** [updateProduct] on a body that is not [null], for the product of the
    path: it throws when a value does not marshall, and else the store
    is asked to assign the fields of the body. *)
Lemma updateProduct_eval (event : Event) (requestBody : Value) (X : string)
      (t : Table) :
  body event = Some requestBody -> requestBody <> JNull ->
  pathParameters event = Some {| id := Some X |} ->
  updateProduct event t =
    match assignments_of requestBody with
    | None => (Throw MarshallError, t)
    | Some [] => (Throw (ValidationException InvalidExpression), t)
    | Some assignments =>
        SET {[partition_key := S X]}
            (UpdateExpression_for (own_entries requestBody).*1) assignments t
    end.
Proof.
  intros Hbody Hnull Hpath.
  unfold updateProduct. rewrite try_catch_rethrow.
  unfold bind at 1. unfold lift at 1. rewrite Hbody. simpl JSON_parse. cbv iota.
  unfold bind at 1. unfold lift at 1. rewrite Object_keys_defined by done.
  cbv iota. unfold bind at 1. unfold lift at 1.
  unfold pathParameters_id. rewrite Hpath. cbv iota. cbn [id].
  unfold bind at 1. unfold lift at 1.
  change (marshall_defined [("id", JString <$> Some X)])
    with (Ok ({[partition_key := S X]} : Item)).
  cbv iota.
  unfold bind at 1. unfold lift at 1. rewrite update_values.
  destruct (assignments_of requestBody) as [assignments | ] eqn:Hasg;
    [ | done].
  cbv iota. cbn [send]. unfold UpdateItem.
  cbn [UpdateItem.Key UpdateItem.UpdateExpression
       UpdateItem.ExpressionAttributeNames UpdateItem.ExpressionAttributeValues].
  rewrite parse_update_expression, update_names.
  rewrite <- (assignments_of_keys requestBody assignments Hasg).
  destruct assignments as [ | a assignments]; [done | ].
  set (asg := a :: assignments).
  assert (Hkeys :
    match asg.*1 with
    | [] => None
    | _ => Some (imap (fun i (_ : string) =>
                         (name_placeholder i, value_placeholder i)) asg.*1)
    end
    = Some (imap (fun i (_ : string) =>
                    (name_placeholder i, value_placeholder i)) asg.*1))
    by done.
  rewrite Hkeys. clear Hkeys. cbv iota.
  assert (Hasg' : asg <> []) by done. clearbody asg.
  rewrite !imap_fmap. unfold compose.
  rewrite (size_placeholders name_placeholder fst asg name_placeholder_inj)
    by done.
  rewrite (size_placeholders value_placeholder snd asg value_placeholder_inj)
    by done.
  cbn [orb].
  rewrite (resolve_update_assignments asg fst snd).
  replace ((fun x : string * AttributeValue => (x.1, x.2)) <$> asg) with asg.
  - reflexivity.
  - rewrite <- (list_fmap_id asg) at 1. apply list_fmap_ext. by intros i [k v] _.
Qed.

Lemma updateProduct_eval_fields (event : Event) (requestBody : Value)
      (X : string) (assignments : list (string * AttributeValue)) (t : Table) :
  body event = Some requestBody ->
  pathParameters event = Some {| id := Some X |} ->
  assignments_of requestBody = Some assignments -> assignments <> [] ->
  updateProduct event t
  = SET {[partition_key := S X]}
        (UpdateExpression_for (own_entries requestBody).*1) assignments t.
Proof.
  intros Hbody Hpath Hasg Hne.
  assert (Hnull : requestBody <> JNull).
  { intros ->. injection Hasg as <-. done. }
  rewrite (updateProduct_eval event requestBody X t), Hasg by done.
  by destruct assignments.
Qed.

(** Whatever the event, [updateProduct] throws on the table it got or
    has the store run an update on it. *)
Lemma updateProduct_cases (event : Event) (t : Table) :
  (exists e, updateProduct event t = (Throw e, t)) \/
  (exists input, updateProduct event t = UpdateItem input t).
Proof.
  unfold updateProduct. rewrite try_catch_rethrow.
  unfold bind, lift.
  destruct (JSON_parse (body event)) as [requestBody | e]; [ | by left; eexists].
  destruct (Object_keys requestBody) as [objKeys | e]; [ | by left; eexists].
  destruct (pathParameters_id event) as [pid | e]; [ | by left; eexists].
  destruct (marshall_defined [("id", JString <$> pid)]) as [Key | e];
    [ | by left; eexists].
  destruct (marshall_defined _) as [values | e]; [ | by left; eexists].
  right. by eexists.
Qed.

Lemma get_prop_NoDup {A} (k : string) (v : A) (o : list (string * A)) :
  NoDup o.*1 -> (k, v) ∈ o -> get_prop k o = Some v.
Proof.
  intros Hnd Hin. rewrite get_prop_list_to_map.
  by apply elem_of_list_to_map_1.
Qed.

Lemma mapM_fmap_ext {A B C} (f : B -> option C) (g : A -> B)
      (h : A -> option C) (l : list A) :
  (forall x, x ∈ l -> f (g x) = h x) -> mapM f (g <$> l) = mapM h l.
Proof.
  induction l as [ | x l IH]; intros Hext; [done | ].
  rewrite fmap_cons, !mapM_cons, IH.
  - rewrite Hext; [done | apply list_elem_of_here].
  - intros y Hy. apply Hext. by apply list_elem_of_further.
Qed.

(** The assignments of an object are its marshalled entries. *)
Lemma assignments_of_object (fields : list (string * Value)) :
  NoDup fields.*1 ->
  assignments_of (JObject fields) = mapM marshall_entry fields.
Proof.
  intros Hnd. unfold assignments_of. simpl own_entries.
  apply mapM_fmap_ext. intros [k v] Hin. unfold member. simpl own_entries.
  by rewrite (get_prop_NoDup k v).
Qed.


(** Every update throws on the table it got, or assigns the fields of
    its body to the product of the path. *)
Lemma updateProduct_outcome (event : Event) (t : Table) :
  (exists e, updateProduct event t = (Throw e, t)) \/
  (exists requestBody X assignments,
      body event = Some requestBody /\
      pathParameters event = Some {| id := Some X |} /\
      assignments_of requestBody = Some assignments /\
      (partition_key ∉ (own_entries requestBody).*1) /\
      ("" ∉ (own_entries requestBody).*1) /\
      NoDup (own_entries requestBody).*1 /\
      (own_entries requestBody).*1 <> [] /\
      key_ok X = true /\
      expression_ok (UpdateExpression_for (own_entries requestBody).*1) = true /\
      item_ok (apply_assignments (default {[partition_key := S X]} (t !! X))
                                 assignments) = true /\
      updateProduct event t =
        (Ok metadata,
         <[X := apply_assignments (default {[partition_key := S X]} (t !! X))
                                  assignments]> t)).
Proof.
  destruct (body event) as [requestBody | ] eqn:Hbody; cycle 1.
  { left. unfold updateProduct. rewrite try_catch_rethrow.
    unfold bind, lift. rewrite Hbody. by eexists. }
  assert (requestBody = JNull \/ requestBody <> JNull) as [-> | Hnull]
    by (destruct requestBody; (by left) || (by right)).
  { left. unfold updateProduct. rewrite try_catch_rethrow.
    unfold bind, lift. rewrite Hbody. by eexists. }
  destruct (pathParameters event) as [[[X | ]] | ] eqn:Hpath; cycle 1.
  { left. unfold updateProduct. rewrite try_catch_rethrow.
    unfold bind, lift, pathParameters_id. rewrite Hbody, Hpath. simpl.
    rewrite Object_keys_defined by done. by eexists. }
  { left. unfold updateProduct. rewrite try_catch_rethrow.
    unfold bind, lift, pathParameters_id. rewrite Hbody, Hpath. simpl.
    rewrite Object_keys_defined by done. by eexists. }
  rewrite (updateProduct_eval event requestBody X t) by done.
  destruct (assignments_of requestBody) as [assignments | ] eqn:Hasg;
    [ | left; by eexists].
  pose proof (assignments_of_keys requestBody assignments Hasg) as Hkeys.
  destruct assignments as [ | a assignments]; [left; by eexists | ].
  destruct (SET_cases {[partition_key := S X]}
              (UpdateExpression_for (own_entries requestBody).*1)
              (a :: assignments) t)
    as [[e ->] | (k & Hk & Hid & Hname & Hnd & Hexpr & Hitem & ->)];
    [left; by eexists | ].
  rewrite key_of_singleton in Hk.
  destruct (key_ok X) eqn:HX; [ | done]. injection Hk as <-.
  right. exists requestBody, X, (a :: assignments).
  rewrite Hkeys in Hid, Hname, Hnd.
  split; [done | split; [done | split; [done | ]]].
  split; [done | split; [done | split; [done | ]]].
  split; [by rewrite <- Hkeys, fmap_cons | done].
Qed.

End ProductFacts.
(** ** The product catalog: updates *)

Section UpdateProduct.
Import Product.
Context {limits : Limits}.

Lemma catalog_wf : table_wf catalog.
Proof.
  intros k item Hk. unfold catalog in Hk.
  apply lookup_singleton_Some in Hk as [<- <-].
  split; reflexivity.
Qed.

(** C4 (id immutability).  An update never changes the id of a stored
    product: the table keeps every item under the key its [id] names, the
    product that was stored under X is still there with id X, and a body
    that carries an [id] entry is never applied: the store refuses it
    (when its values marshall, else [marshall] has thrown before) and the
    table is left as it was. *)
Theorem updateProduct_id_immutable (event : Event) (t : Table) :
  table_wf t ->
  table_wf (updateProduct event t).2 /\
  (forall X (item : Item),
      t !! X = Some item ->
      exists item' : Item,
        (updateProduct event t).2 !! X = Some item' /\
        item' !! "id" = Some (S X)) /\
  (forall X requestBody,
      pathParameters event = Some {| id := Some X |} ->
      body event = Some requestBody ->
      "id" ∈ (own_entries requestBody).*1 ->
      updateProduct event t
      = (Throw match assignments_of requestBody with
               | Some _ => ValidationException KeyAttributeUpdate
               | None => MarshallError
               end, t)).
Proof.
  intros Hwf.
  assert (Hwf' : table_wf (updateProduct event t).2).
  { destruct (updateProduct_cases event t) as [[e ->] | [input ->]]; [done | ].
    exact (send_table_wf (UpdateItemCommand input) t Hwf). }
  split; [exact Hwf' | split].
  - intros X item HX.
    destruct (updateProduct_outcome event t)
      as [[e He] | (requestBody & X' & asg & _ & _ & _ & _ & _ & _ & _ & _ & _ & _
                    & Hupd)].
    { rewrite He. simpl. exists item. split; [done | by apply Hwf]. }
    destruct (decide (X' = X)) as [-> | Hne].
    + destruct ((updateProduct event t).2 !! X) as [item' | ] eqn:Hitem'.
      * exists item'. split; [done | by apply Hwf'].
      * rewrite Hupd in Hitem'. simpl in Hitem'.
        by rewrite lookup_insert_eq in Hitem'.
    + exists item. rewrite Hupd. simpl. rewrite lookup_insert_ne by done.
      split; [done | by apply Hwf].
  - intros X requestBody Hpath Hbody Hin.
    assert (Hnull : requestBody <> JNull).
    { intros ->. by apply elem_of_nil in Hin. }
    rewrite (updateProduct_eval event requestBody X t) by done.
    destruct (assignments_of requestBody) as [asg | ] eqn:Hasg; [ | done].
    pose proof (assignments_of_keys requestBody asg Hasg) as Hkeys.
    destruct asg as [ | a asg].
    { rewrite <- Hkeys in Hin. by apply elem_of_nil in Hin. }
    unfold SET. rewrite Hkeys. by rewrite bool_decide_eq_true_2.
Qed.


(** C10 (empty body).  An update whose body is the empty object does not
    pass as a no-op: the expression it writes is [SET] with no assignment,
    which the store does not accept, so the call throws, the handler
    answers 500 and the table is as it was. *)
Theorem updateProduct_empty_body (uuidv4 : string) (event : Event) (t : Table) :
  body event = Some (JObject []) ->
  UpdateExpression_for [] = "SET " /\
  parse_update (UpdateExpression_for []) = None /\
  (exists e, updateProduct event t = (Throw e, t)) /\
  (forall X,
      pathParameters event = Some {| id := Some X |} ->
      updateProduct event t
      = (Throw (ValidationException InvalidExpression), t)) /\
  (httpMethod event = "PUT" ->
   (handler uuidv4 event t).2 = t /\
   statusCode (handler uuidv4 event t).1 = 500%Z).
Proof.
  intros Hbody.
  assert (Hthrows : exists e, updateProduct event t = (Throw e, t)).
  { destruct (updateProduct_outcome event t)
      as [He | (requestBody & X & asg & Hb & _ & _ & _ & _ & _ & Hkeys & _)];
      [done | ].
    rewrite Hbody in Hb. injection Hb as <-. done. }
  split; [reflexivity | split; [reflexivity | split; [exact Hthrows | split]]].
  - intros X Hpath.
    by rewrite (updateProduct_eval event (JObject []) X t).
  - intros Hmethod. destruct Hthrows as [e He].
    unfold handler, route. rewrite Hmethod. simpl.
    unfold fmap_client, bind. by rewrite He.
Qed.

End UpdateProduct.

Section UpdateProductExamples.
Import Product.
#[local] Existing Instance unlimited.

Lemma updateProduct_id_immutable_witness :
  table_wf catalog /\
  (exists item' : Item,
    (updateProduct
       (request "PUT" "p-1"
          (Some (JObject [("id", JString "p-2");
                          ("price", JNumber (integer 42))])))
       catalog).2 !! "p-1" = Some item' /\
    item' !! "id" = Some (S "p-1")) /\
  updateProduct
    (request "PUT" "p-1"
       (Some (JObject [("id", JString "p-2"); ("price", JNumber (integer 42))])))
    catalog
  = (Throw (ValidationException KeyAttributeUpdate), catalog).
Proof.
  split; [exact catalog_wf | ].
  destruct (updateProduct_id_immutable
              (request "PUT" "p-1"
                 (Some (JObject [("id", JString "p-2");
                                 ("price", JNumber (integer 42))])))
              catalog catalog_wf) as (_ & Hkept & Hrefused).
  split.
  - apply (Hkept "p-1" widget). reflexivity.
  - apply (Hrefused "p-1" (JObject [("id", JString "p-2");
                                    ("price", JNumber (integer 42))])).
    + reflexivity.
    + reflexivity.
    + apply list_elem_of_here.
Defined.



Lemma updateProduct_empty_body_witness :
  updateProduct (request "PUT" "p-1" (Some (JObject []))) catalog
  = (Throw (ValidationException InvalidExpression), catalog) /\
  statusCode (handler "u-1" (request "PUT" "p-1" (Some (JObject []))) catalog).1
  = 500%Z.
Proof.
  destruct (updateProduct_empty_body "u-1"
              (request "PUT" "p-1" (Some (JObject []))) catalog eq_refl)
    as (_ & _ & _ & Hthrow & Hstatus).
  split.
  - apply (Hthrow "p-1"). reflexivity.
  - apply Hstatus. reflexivity.
Defined.

End UpdateProductExamples.

(** ** The product catalog: point operations *)

Section PointOperations.
Import Product.
Context {limits : Limits}.

Lemma deleteProduct_eval (productId : string) (t : Table) :
  deleteProduct productId t
  = if key_ok productId then (Ok metadata, delete productId t)
    else (Throw (ValidationException InvalidKeyValue), t).
Proof.
  unfold deleteProduct. rewrite try_catch_rethrow. unfold bind, lift.
  rewrite marshall_id. cbn [send]. unfold DeleteItem.
  rewrite key_of_singleton. by destruct (key_ok productId).
Qed.

Lemma getProduct_eval (productId : string) (t : Table) :
  getProduct productId t
  = if key_ok productId
    then (Ok match t !! productId with
             | Some item => unmarshall item
             | None => ∅
             end, t)
    else (Throw (ValidationException InvalidKeyValue), t).
Proof.
  unfold getProduct. rewrite try_catch_rethrow. unfold bind, lift.
  rewrite marshall_id. cbn [send]. unfold GetItem.
  rewrite key_of_singleton. by destruct (key_ok productId).
Qed.

(** C6 (idempotent delete).  For an id that may be a key,
    deleting a product succeeds, and so does deleting it again; the
    second delete changes nothing, and deleting an id that is not stored
    succeeds and changes nothing.  For any other id (the empty one, or
    one beyond the length of a key) every delete is refused. *)
Theorem deleteProduct_idempotent (productId : string) (t : Table) :
  (key_ok productId = true ->
   (deleteProduct productId t).1 = Ok metadata /\
   (deleteProduct productId (deleteProduct productId t).2).1 = Ok metadata /\
   (deleteProduct productId (deleteProduct productId t).2).2
   = (deleteProduct productId t).2 /\
   (deleteProduct productId t).2 !! productId = None /\
   (t !! productId = None -> deleteProduct productId t = (Ok metadata, t))) /\
  (key_ok productId = false ->
   deleteProduct productId t
   = (Throw (ValidationException InvalidKeyValue), t)).
Proof.
  split; intros Hkey; repeat (rewrite deleteProduct_eval, Hkey; simpl);
    [ | done].
  split; [done | split; [done | split; [ | split]]].
  - apply delete_id, lookup_delete_eq.
  - apply lookup_delete_eq.
  - intros Habsent. by rewrite delete_id.
Qed.

(** C7 (absent is not an error).  For an id that may be a key,
    getting an id that is not stored answers the empty object, getting a
    stored one answers the record of the stored item, the object that
    marshalls to it; either way the handler answers 200.  For any other
    id the get is refused and the handler answers 500. *)
Theorem getProduct_absent_is_empty (uuidv4 productId : string) (t : Table) :
  (key_ok productId = true ->
   (t !! productId = None -> getProduct productId t = (Ok ∅, t)) /\
   (forall item : Item,
       t !! productId = Some item ->
       exists p,
         getProduct productId t = (Ok p, t) /\
         record_of item p /\
         forall obj, marshall obj = Ok item -> p = list_to_map obj) /\
   statusCode (handler uuidv4 (request "GET" productId None) t).1 = 200%Z) /\
  (key_ok productId = false ->
   getProduct productId t = (Throw (ValidationException InvalidKeyValue), t) /\
   statusCode (handler uuidv4 (request "GET" productId None) t).1 = 500%Z).
Proof.
  rewrite getProduct_eval. split; intros Hkey; rewrite Hkey.
  - split; [ | split].
    + by intros ->.
    + intros item ->. exists (unmarshall item).
      split; [done | split; [apply record_of_unmarshall | ]].
      intros obj Hobj. by apply unmarshall_marshall.
    + unfold handler, route, request. simpl.
      unfold fmap_client, bind. by rewrite getProduct_eval, Hkey.
  - split; [done | ].
    unfold handler, route, request. simpl.
    unfold fmap_client, bind. by rewrite getProduct_eval, Hkey.
Qed.

Lemma marshall_dom (obj : list (string * Value)) (item : Item) (k : string) :
  marshall obj = Ok item -> is_Some (item !! k) <-> k ∈ obj.*1.
Proof.
  intros (attributes & Hkeys%marshall_entries_keys & ->)%marshall_Ok.
  rewrite <- Hkeys. rewrite <- not_eq_None_Some.
  rewrite <- not_elem_of_list_to_map.
  destruct (decide (k ∈ attributes.*1)); tauto.
Qed.

Lemma marshall_lookup (obj : list (string * Value)) (item : Item) (k : string) :
  marshall obj = Ok item ->
  item !! k = (list_to_map obj : gmap string Value) !! k ≫= convertToAttr.
Proof.
  intros Hobj. pose proof (unmarshall_marshall obj item Hobj) as Hback.
  rewrite <- Hback. unfold unmarshall. rewrite lookup_fmap.
  destruct (item !! k) as [a | ]; simpl; [ | done].
  by rewrite convertToAttr_convertToNative.
Qed.

Lemma set_prop_keys {A} (k k' : string) (v : A) (o : list (string * A)) :
  k' ∈ (set_prop k v o).*1 <-> k' = k \/ k' ∈ o.*1.
Proof.
  induction o as [ | [k0 v0] o IH]; simpl.
  - rewrite list_elem_of_singleton. split; [by left | intros [ | H]; [done | ]].
    by apply elem_of_nil in H.
  - destruct (decide (k0 = k)) as [-> | Hne]; simpl;
      rewrite !elem_of_cons; [tauto | ]. rewrite IH. tauto.
Qed.



Lemma createProduct_eval (uuidv4 : string) (event : Event)
      (fields : list (string * Value)) (t : Table) :
  body event = Some (JObject fields) ->
  createProduct uuidv4 event t
  = match marshall (set_prop "id" (JString uuidv4) fields) with
    | Ok item =>
        if negb (key_ok uuidv4)
        then (Throw (ValidationException InvalidKeyValue), t)
        else if bool_decide ("" ∈ fields.*1)
        then (Throw (ValidationException EmptyAttributeName), t)
        else if item_ok item then (Ok metadata, <[uuidv4 := item]> t)
        else (Throw (ValidationException LimitExceeded), t)
    | Throw e => (Throw e, t)
    end.
Proof.
  intros Hbody. unfold createProduct. rewrite try_catch_rethrow.
  unfold bind, lift. rewrite Hbody. simpl JSON_parse. cbv iota.
  simpl with_id. cbv iota.
  destruct (marshall (set_prop "id" (JString uuidv4) fields)) as [item | e]
    eqn:Hitem; [ | done].
  cbn [send]. unfold PutItem, refuse, throw.
  rewrite (marshall_lookup _ _ partition_key Hitem), list_to_map_set_prop.
  change partition_key with "id". rewrite lookup_insert_eq. simpl.
  destruct (key_ok uuidv4); simpl; [ | done].
  assert (Hname : is_Some (item !! "") <-> "" ∈ fields.*1).
  { rewrite (marshall_dom _ _ "" Hitem), set_prop_keys.
    split; [by intros [? | ?] | by right]. }
  by rewrite (bool_decide_ext _ _ Hname).
Qed.


(** X17.  Every request the handler serves leaves a table that is keyed
    by the ids of its items: no operation stores a product under a key
    other than its [id]. *)
Lemma handler_table_wf (uuidv4 : string) (event : Event) (t : Table) :
  table_wf t -> table_wf (handler uuidv4 event t).2.
Proof.
  intros Hwf. unfold handler.
  assert (Hroute : keeps_wf (route uuidv4 event)).
  { unfold route, fmap_client, getProductsByCategory, getProduct,
      getAllProducts, createProduct, deleteProduct, updateProduct.
    repeat case_decide; keeps_wf. }
  specialize (Hroute t Hwf).
  by destruct (route uuidv4 event t) as [[b | e] t'].
Qed.

End PointOperations.

Section PointOperationsExamples.
Import Product.
#[local] Existing Instance unlimited.

(** Deleting the product of the empty id, as C6 has it for every id, is
    refused. *)
Lemma deleteProduct_idempotent_counterexample :
  deleteProduct "" catalog
  = (Throw (ValidationException InvalidKeyValue), catalog).
Proof. reflexivity. Qed.

Lemma deleteProduct_idempotent_witness :
  deleteProduct "p-7" catalog = (Ok metadata, catalog) /\
  (deleteProduct "p-1" (deleteProduct "p-1" catalog).2).1 = Ok metadata /\
  deleteProduct "" catalog
  = (Throw (ValidationException InvalidKeyValue), catalog).
Proof.
  split; [ | split].
  - apply (proj1 (deleteProduct_idempotent "p-7" catalog) eq_refl).
    reflexivity.
  - apply (proj1 (deleteProduct_idempotent "p-1" catalog) eq_refl).
  - apply (proj2 (deleteProduct_idempotent "" catalog) eq_refl).
Defined.

(** Getting the product of the empty id, which is not stored, fails, and
    the handler answers 500. *)
Lemma getProduct_absent_is_empty_counterexample :
  catalog !! "" = None /\
  getProduct "" catalog
  = (Throw (ValidationException InvalidKeyValue), catalog) /\
  statusCode (handler sample_uuid (request "GET" "" None) catalog).1 = 500%Z.
Proof. split; [ | split]; reflexivity. Qed.

Lemma getProduct_absent_is_empty_witness :
  getProduct "p-7" catalog = (Ok ∅, catalog) /\
  (exists p,
      getProduct "p-1" catalog = (Ok p, catalog) /\
      record_of widget p /\
      forall obj, marshall obj = Ok widget -> p = list_to_map obj) /\
  getProduct "p-1" catalog
  = (Ok {[ "id" := JString "p-1"; "name" := JString "Widget";
           "price" := JNumber (Finite 999 (-2));
           "category" := JString "Tools" ]}, catalog).
Proof.
  split; [ | split].
  - apply (proj1 (getProduct_absent_is_empty sample_uuid "p-7" catalog) eq_refl).
    reflexivity.
  - apply (proj1 (getProduct_absent_is_empty sample_uuid "p-1" catalog) eq_refl).
    reflexivity.
  - reflexivity.
Defined.



End PointOperationsExamples.

(** ** The product catalog: the category filter *)

Section CategoryFilter.
Import Product.
Context {limits : Limits}.

Lemma prefix_spec (sub s : string) :
  String.prefix sub s = true <-> exists after, s = sub +:+ after.
Proof.
  revert s. induction sub as [ | c sub IH]; intros s.
  - split; [intros _; by exists s | by destruct s].
  - destruct s as [ | c' s]; simpl.
    + split; [done | intros [after Hafter]; discriminate Hafter].
    + destruct (ascii_dec c c') as [<- | Hne].
      * rewrite IH. split; intros [after Hafter]; exists after.
        -- by rewrite append_cons, Hafter.
        -- rewrite append_cons in Hafter. by injection Hafter.
      * split; [done | intros [after Hafter]].
        rewrite append_cons in Hafter. injection Hafter as Hc _.
        by destruct Hne.
Qed.

Lemma occurs_in_spec (sub s : string) :
  occurs_in sub s = true <-> substring_of sub s.
Proof.
  unfold substring_of. induction s as [ | c s IH].
  - change (occurs_in sub "") with (String.prefix sub "" || false).
    rewrite orb_false_r, prefix_spec. split.
    + intros [after Hafter]. by exists "", after.
    + intros ([ | b before] & after & Hs).
      * by exists after.
      * rewrite append_cons in Hs. discriminate Hs.
  - change (occurs_in sub (String c s))
      with (String.prefix sub (String c s) || occurs_in sub s).
    rewrite orb_true_iff, IH, prefix_spec. split.
    + intros [[after Hafter] | (before & after & Hs)].
      * by exists "", after.
      * exists (String c before), after. by rewrite append_cons, Hs.
    + intros ([ | b before] & after & Hs).
      * left. by exists after.
      * right. rewrite append_cons in Hs. injection Hs as _ Hs.
        by exists before, after.
Qed.

(** A list attribute contains a text when the text is one of its
    elements. *)
Lemma AttributeValue_eqb_S (s : string) (a : AttributeValue) :
  AttributeValue_eqb (S s) a = true <-> a = S s.
Proof.
  destruct a as [s' | | | | | ]; simpl; try (split; discriminate).
  rewrite bool_decide_eq_true. split; [by intros -> | by intros [= ->]].
Qed.

Lemma existsb_eqb_S (s : string) (l : list AttributeValue) :
  existsb (AttributeValue_eqb (S s)) l = true <-> S s ∈ l.
Proof.
  rewrite existsb_exists. split.
  - intros (a & Hin & ->%AttributeValue_eqb_S). by apply list_elem_of_In.
  - intros Hin. exists (S s). split; [by apply list_elem_of_In | ].
    by apply AttributeValue_eqb_S.
Qed.

(** What [contains (category, :category)] holds of. *)
Lemma contains_category (item : Item) (category : string) :
  contains (item !! "category") (S category) = true <->
  (exists c, item !! "category" = Some (S c) /\ substring_of category c) \/
  (exists l, item !! "category" = Some (L l) /\ S category ∈ l).
Proof.
  destruct (item !! "category") as [[c | | | | l | ] | ]; unfold contains.
  - rewrite occurs_in_spec. split.
    + intros Hsub. left. by exists c.
    + by intros [(c' & [= <-] & Hsub) | (l & Hl & _)].
  - split; [done | by intros [(c' & H & _) | (l & H & _)]].
  - split; [done | by intros [(c' & H & _) | (l & H & _)]].
  - split; [done | by intros [(c' & H & _) | (l & H & _)]].
  - rewrite existsb_eqb_S. split.
    + intros Hin. right. by exists l.
    + by intros [(c' & H & _) | (l' & [= <-] & Hin)].
  - split; [done | by intros [(c' & H & _) | (l & H & _)]].
  - split; [done | by intros [(c' & H & _) | (l & H & _)]].
Qed.

Lemma getProductsByCategory_eval (event : Event) (productId category : string)
      (t : Table) :
  pathParameters event = Some {| id := Some productId |} ->
  queryStringParameters event = Some {| Product.category := Some category |} ->
  getProductsByCategory event t
  = if key_ok productId
    then (Ok (unmarshall <$>
                match t !! productId with
                | Some item =>
                    if contains (item !! "category") (S category)
                    then [item] else []
                | None => []
                end), t)
    else (Throw (ValidationException InvalidKeyValue), t).
Proof.
  intros Hpath Hquery. unfold getProductsByCategory.
  rewrite try_catch_rethrow.
  unfold bind, lift, pathParameters_id, queryStringParameters_category.
  rewrite Hpath, Hquery. cbn [id Product.category send]. unfold Query.
  cbn [Query.KeyConditionExpression Query.FilterExpression
       Query.ExpressionAttributeValues].
  change (parse_key_condition "id = :productId")
    with (Some ("id", ":productId")).
  change (parse_contains "contains (category, :category)")
    with (Some ("category", ":category")).
  cbv iota beta. rewrite bool_decide_eq_true_2 by done.
  rewrite lookup_insert_eq.
  rewrite lookup_insert_ne, lookup_singleton_eq by done.
  simpl. by destruct (key_ok productId).
Qed.

(** C8 (filter by id and category).  For an id that may be a
    key, the answer lists exactly the records of the stored products
    whose id is the id of the path and whose category either is a text
    that has the text of the query as a substring, or is a list that has
    the text of the query among its elements; nothing is listed twice
    and the table is not touched.  For any other id the query is
    refused. *)
Theorem getProductsByCategory_exact (event : Event)
        (productId category : string) (t : Table) :
  pathParameters event = Some {| id := Some productId |} ->
  queryStringParameters event = Some {| Product.category := Some category |} ->
  table_wf t ->
  (key_ok productId = true ->
   exists products,
     getProductsByCategory event t = (Ok products, t) /\
     NoDup products /\
     forall p,
       p ∈ products <->
       exists k (item : Item),
         t !! k = Some item /\
         item !! "id" = Some (S productId) /\
         ((exists c, item !! "category" = Some (S c) /\ substring_of category c) \/
          (exists l, item !! "category" = Some (L l) /\ S category ∈ l)) /\
         record_of item p) /\
  (key_ok productId = false ->
   getProductsByCategory event t
   = (Throw (ValidationException InvalidKeyValue), t)).
Proof.
  intros Hpath Hquery Hwf.
  rewrite (getProductsByCategory_eval event productId category t) by done.
  split; intros ->; [ | done].
  eexists. split; [reflexivity | ].
  assert (Hkey : forall k (item : Item),
             t !! k = Some item -> item !! "id" = Some (S productId) ->
             k = productId).
  { intros k item Hk Hid. apply Hwf in Hk as [Hk _].
    change partition_key with "id" in Hk.
    rewrite Hk in Hid. by injection Hid. }
  destruct (t !! productId) as [item | ] eqn:Hitem.
  - destruct (contains (item !! "category") (S category)) eqn:Hcat.
    + split; [apply NoDup_singleton | ]. intros p. simpl.
      rewrite list_elem_of_singleton. split.
      * intros ->. exists productId, item.
        split; [done | split; [by apply Hwf | split]].
        -- by apply contains_category.
        -- apply record_of_unmarshall.
      * intros (k & item' & Hk & Hid & _ & Hp).
        rewrite (Hkey k item' Hk Hid), Hitem in Hk. injection Hk as <-.
        by apply record_of_unique.
    + split; [apply NoDup_nil_2 | ]. intros p. simpl. split.
      * intros Hp. by apply elem_of_nil in Hp.
      * intros (k & item' & Hk & Hid & Hc & _).
        rewrite (Hkey k item' Hk Hid), Hitem in Hk. injection Hk as <-.
        apply contains_category in Hc. congruence.
  - split; [apply NoDup_nil_2 | ]. intros p. simpl. split.
    + intros Hp. by apply elem_of_nil in Hp.
    + intros (k & item' & Hk & Hid & _).
      rewrite (Hkey k item' Hk Hid), Hitem in Hk. discriminate Hk.
Qed.

End CategoryFilter.

Section CategoryFilterExamples.
Import Product.
#[local] Existing Instance unlimited.

Lemma tagged_catalog_wf : table_wf tagged_catalog.
Proof.
  intros k item Hk. unfold tagged_catalog in Hk.
  apply lookup_singleton_Some in Hk as [<- <-].
  split; reflexivity.
Qed.

(** The filter is not substring containment alone: a product whose
    category is a list of tags (as an update of this service can store
    it) is answered for the text of one of its tags, though no text of
    it has the query as a substring, and is not answered for a part of
    a tag; and for the empty id nothing is answered at all. *)
Lemma getProductsByCategory_exact_counterexample :
  updateProduct
    (request "PUT" "p-2"
       (Some (JObject [("category",
                        JArray [JString "Tools"; JString "Garden"])]))) ∅
  = (Ok metadata, tagged_catalog) /\
  getProductsByCategory (category_query "p-2" "Tools") tagged_catalog
  = (Ok [ {[ "id" := JString "p-2";
             "category" := JArray [JString "Tools"; JString "Garden"] ]} ],
     tagged_catalog) /\
  tagged_catalog !! "p-2" = Some tagged /\
  tagged !! "category" = Some (L [S "Tools"; S "Garden"]) /\
  getProductsByCategory (category_query "p-2" "ool") tagged_catalog
  = (Ok [], tagged_catalog) /\
  getProductsByCategory (category_query "" "Tools") tagged_catalog
  = (Throw (ValidationException InvalidKeyValue), tagged_catalog).
Proof. repeat split; reflexivity. Qed.

Lemma getProductsByCategory_exact_witness :
  (exists products,
    getProductsByCategory (category_query "p-1" "ool") catalog
    = (Ok products, catalog) /\
    NoDup products /\
    forall p,
      p ∈ products <->
      exists k (item : Item),
        catalog !! k = Some item /\
        item !! "id" = Some (S "p-1") /\
        ((exists c, item !! "category" = Some (S c) /\ substring_of "ool" c) \/
         (exists l, item !! "category" = Some (L l) /\ S "ool" ∈ l)) /\
        record_of item p) /\
  getProductsByCategory (category_query "p-1" "ool") catalog
  = (Ok [ {[ "id" := JString "p-1"; "name" := JString "Widget";
             "price" := JNumber (Finite 999 (-2));
             "category" := JString "Tools" ]} ], catalog).
Proof.
  split; [ | reflexivity].
  apply (getProductsByCategory_exact (category_query "p-1" "ool") "p-1" "ool"
           catalog).
  - reflexivity.
  - reflexivity.
  - exact catalog_wf.
  - reflexivity.
Defined.

End CategoryFilterExamples.

(** ** Checkout *)

Section Checkout.
Import Basket.
Local Open Scope Z_scope.
Local Open Scope list_scope.

Lemma sum_of_prices_cons (l : BasketItem) (lines : list BasketItem) :
  sum_of_prices (l :: lines) = price l + sum_of_prices lines.
Proof. reflexivity. Qed.

Lemma foldl_add_prices (lines : list BasketItem) (total : Z) :
  foldl (fun total line => total + price line) total lines
  = total + sum_of_prices lines.
Proof.
  revert total. induction lines as [ | l lines IH]; intros total.
  - change (total = total + 0). lia.
  - rewrite sum_of_prices_cons. simpl foldl. rewrite IH. lia.
Qed.

Lemma compute_totalPrice_sum (lines : list BasketItem) :
  compute_totalPrice lines = sum_of_prices lines.
Proof. unfold compute_totalPrice. by rewrite foldl_add_prices. Qed.

Lemma lines_of_cons (w : World) (user : string) (l : BasketItem)
      (ls : list BasketItem) :
  lines_of w user = l :: ls ->
  exists basket,
    baskets w !! user = Some basket /\ items basket = Some (l :: ls).
Proof.
  unfold lines_of. destruct (baskets w !! user) as [basket | ]; [ | done].
  destruct (items basket) as [lines | ] eqn:Hitems; [ | done].
  simpl. intros ->. by exists basket.
Qed.

(** The executions of a checkout, from the request to the outcome. *)
Lemma checkout_eval (cfg : Config) (f : Faults) (request : CheckoutRequest)
      (w : World) :
  checkout cfg f request w =
  match request_userName request with
  | None => (w, Failed ValidationError)
  | Some user =>
      if decide (user = "") then (w, Failed ValidationError)
      else if get_fails f
      then (record_call (GetBasket user false) w, Failed DependencyFailure)
      else
        match lines_of w user with
        | [] => (record_call (GetBasket user true) w, Failed BusinessError)
        | lines =>
            let payload := prepareOrderPayload user request lines in
            let envelope := {| EventBusName := busName cfg;
                               Source := sourceTag cfg;
                               DetailType := detailTypeTag cfg;
                               Detail := payload |} in
            if publish_fails f
            then ({| baskets := baskets w; bus := bus w;
                     calls := calls w ++ [GetBasket user true;
                                          Publish payload false] |},
                  Failed DependencyFailure)
            else if delete_fails f
            then ({| baskets := baskets w; bus := bus w ++ [envelope];
                     calls := calls w ++ [GetBasket user true;
                                          Publish payload true;
                                          DeleteBasket user false] |},
                  SuccessWithWarning)
            else ({| baskets := delete user (baskets w);
                     bus := bus w ++ [envelope];
                     calls := calls w ++ [GetBasket user true;
                                          Publish payload true;
                                          DeleteBasket user true] |},
                  Success)
        end
  end.
Proof.
  unfold checkout, lines_of. cbn [run step].
  destruct (request_userName request) as [user | ]; [ | done].
  destruct (decide (user = "")); [done | ].
  destruct f as [[] [] []]; cbn [run step get_fails]; try reflexivity;
    destruct (baskets w !! user) as [[u [[ | l ls] | ]] | ];
    simpl; unfold record_call; simpl; rewrite <- ?app_assoc; reflexivity.
Qed.

(** A checkout always comes to an end within its five transitions. *)
Lemma checkout_finishes (cfg : Config) (f : Faults) (request : CheckoutRequest)
      (w : World) :
  (checkout cfg f request w).2 <> Unfinished.
Proof.
  rewrite checkout_eval.
  destruct (request_userName request) as [user | ]; [ | done].
  destruct (decide (user = "")); [done | ].
  destruct (get_fails f); [done | ].
  destruct (lines_of w user); [done | ].
  cbv zeta. by destruct (publish_fails f), (delete_fails f).
Qed.

(** C1 (total price).  Whatever a checkout puts on the bus carries the
    lines of the user's basket and, as its total, the sum of their prices,
    each line counted once; lines with the same prices give the same
    total whatever their quantities; and the basket of prices 10 and 20
    is published with total 30 and its two lines, and is gone after. *)
Theorem checkout_totalPrice (cfg : Config) (f : Faults)
        (request : CheckoutRequest) (w : World) :
  (bus (checkout cfg f request w).1 = bus w \/
   exists user basket lines payload,
     request_userName request = Some user /\
     baskets w !! user = Some basket /\
     items basket = Some lines /\
     bus (checkout cfg f request w).1
     = bus w ++ [{| EventBusName := busName cfg; Source := sourceTag cfg;
                    DetailType := detailTypeTag cfg; Detail := payload |}] /\
     event_userName payload = user /\
     event_items payload = lines /\
     totalPrice payload = sum_of_prices lines) /\
  (forall lines lines',
      price <$> lines = price <$> lines' ->
      compute_totalPrice lines = compute_totalPrice lines') /\
  (totalPrice ∘ Detail)
    <$> bus (checkout shop no_faults alice_request
               (put alice_basket empty_world)).1 = [30] /\
  (length ∘ event_items ∘ Detail)
    <$> bus (checkout shop no_faults alice_request
               (put alice_basket empty_world)).1 = [2%nat] /\
  get "alice" (checkout shop no_faults alice_request
                 (put alice_basket empty_world)).1 = None.
Proof.
  split; [ | split; [ | by vm_compute]].
  - rewrite checkout_eval.
    destruct (request_userName request) as [user | ]; [ | by left].
    destruct (decide (user = "")); [by left | ].
    destruct (get_fails f); [by left | ].
    destruct (lines_of w user) as [ | l ls] eqn:Hlines; [by left | ].
    cbv zeta.
    destruct (publish_fails f); [by left | ].
    right. apply lines_of_cons in Hlines as (basket & Hbasket & Hitems).
    exists user, basket, (l :: ls), (prepareOrderPayload user request (l :: ls)).
    split; [done | split; [done | split; [done | split]]].
    { by destruct (delete_fails f). }
    split; [done | split; [done | ]].
    apply compute_totalPrice_sum.
  - intros lines lines' Hprices.
    rewrite !compute_totalPrice_sum. unfold sum_of_prices. by rewrite Hprices.
Qed.

Lemma checkout_totalPrice_witness :
  compute_totalPrice [line "p1" 1 10; line "p2" 1 20]
  = compute_totalPrice [line "p1" 3 10; line "p2" 7 20].
Proof.
  apply (checkout_totalPrice shop no_faults alice_request empty_world).
  reflexivity.
Defined.

(** The two transitions the ordering rests on: a basket is deleted from
    [EVENT_PUBLISHED] only, and [EVENT_PUBLISHED] is entered only by a
    publish that succeeded. *)
Lemma step_delete_from_published (cfg : Config) (f : Faults) (w : World)
      (s : State) (user : string) (ok : bool) :
  calls (step cfg f w s).1 = calls w ++ [DeleteBasket user ok] ->
  s = EVENT_PUBLISHED user.
Proof.
  assert (Hsame : calls w <> calls w ++ [DeleteBasket user ok]).
  { intros Heq. apply (f_equal length) in Heq.
    rewrite length_app in Heq. simpl in Heq. lia. }
  destruct s as [request | u request | u request lines | u payload | u | | | why];
    simpl; try done.
  - destruct (request_userName request) as [u | ]; [ | done].
    by destruct (decide (u = "")).
  - destruct (get_fails f); simpl.
    { intros Heq. apply app_inv_head in Heq. discriminate Heq. }
    destruct (baskets w !! u) as [[? [[ | ? ?] | ]] | ]; simpl;
      intros Heq; apply app_inv_head in Heq; discriminate Heq.
  - destruct (publish_fails f); simpl;
      intros Heq; apply app_inv_head in Heq; discriminate Heq.
  - destruct (delete_fails f); simpl;
      intros Heq; apply app_inv_head in Heq; by injection Heq as ->.
Qed.

Lemma step_enters_published (cfg : Config) (f : Faults) (w : World)
      (s : State) (user : string) :
  (step cfg f w s).2 = EVENT_PUBLISHED user ->
  exists payload,
    s = PAYLOAD_BUILT user payload /\
    publish_fails f = false /\
    calls (step cfg f w s).1 = calls w ++ [Publish payload true].
Proof.
  destruct s as [request | u request | u request lines | u payload | u | | | why];
    simpl; try done.
  - destruct (request_userName request) as [u | ]; [ | done].
    by destruct (decide (u = "")).
  - destruct (get_fails f); [done | ].
    by destruct (baskets w !! u) as [[? [[ | ? ?] | ]] | ].
  - destruct (publish_fails f); [done | ]. simpl. intros [= ->].
    by exists payload.
  - by destruct (delete_fails f).
Qed.

(** C2 (publish before delete).  In the calls of a checkout a delete of
    the basket comes only after a publish of that user's payload that
    succeeded; and when the publish fails the baskets are what they
    were, the bus has nothing new, and the checkout reports a failure. *)
Theorem checkout_publish_before_delete (cfg : Config) (f : Faults)
        (request : CheckoutRequest) (w : World) :
  exists new,
    calls (checkout cfg f request w).1 = calls w ++ new /\
    (forall before user ok after,
        new = before ++ DeleteBasket user ok :: after ->
        exists payload,
          Publish payload true ∈ before /\ event_userName payload = user) /\
    (forall payload,
        Publish payload false ∈ new ->
        baskets (checkout cfg f request w).1 = baskets w /\
        bus (checkout cfg f request w).1 = bus w /\
        exists why, (checkout cfg f request w).2 = Failed why) /\
    (publish_fails f = true ->
     (forall user, get user (checkout cfg f request w).1 = get user w) /\
     bus (checkout cfg f request w).1 = bus w /\
     exists why, (checkout cfg f request w).2 = Failed why).
Proof.
  rewrite checkout_eval.
  destruct (request_userName request) as [user | ]; cycle 1.
  { exists []. rewrite app_nil_r. split; [done | split; [ | split]].
    - intros [ | ? ?] ? ? ? ?; discriminate.
    - intros payload Hin. by apply elem_of_nil in Hin.
    - intros _. simpl. eauto. }
  destruct (decide (user = "")).
  { exists []. rewrite app_nil_r. split; [done | split; [ | split]].
    - intros [ | ? ?] ? ? ? ?; discriminate.
    - intros payload Hin. by apply elem_of_nil in Hin.
    - intros _. simpl. eauto. }
  destruct (get_fails f).
  { exists [GetBasket user false]. split; [done | split; [ | split]].
    - intros [ | ? [ | ? ?]] ? ? ? ?; discriminate.
    - intros payload Hin. apply list_elem_of_singleton in Hin. discriminate.
    - intros _. simpl. eauto. }
  destruct (lines_of w user) as [ | l ls] eqn:Hlines.
  { exists [GetBasket user true]. split; [done | split; [ | split]].
    - intros [ | ? [ | ? ?]] ? ? ? ?; discriminate.
    - intros payload Hin. apply list_elem_of_singleton in Hin. discriminate.
    - intros _. simpl. eauto. }
  cbv zeta. destruct (publish_fails f).
  { eexists. split; [reflexivity | split; [ | split]].
    - intros [ | ? [ | ? [ | ? ?]]] ? ? ? ?; discriminate.
    - intros _ _. simpl. eauto.
    - intros _. simpl. eauto. }
  destruct (delete_fails f).
  - eexists. split; [reflexivity | split; [ | split]].
    + intros [ | c1 [ | c2 [ | c3 [ | ? ?]]]] u ok after Hnew;
        simplify_eq/=.
      eexists. split; [apply list_elem_of_further, list_elem_of_here | ].
      reflexivity.
    + intros payload Hin. repeat (apply elem_of_cons in Hin as [Hin | Hin];
        [discriminate Hin | ]). by apply elem_of_nil in Hin.
    + discriminate.
  - eexists. split; [reflexivity | split; [ | split]].
    + intros [ | c1 [ | c2 [ | c3 [ | ? ?]]]] u ok after Hnew;
        simplify_eq/=.
      eexists. split; [apply list_elem_of_further, list_elem_of_here | ].
      reflexivity.
    + intros payload Hin. repeat (apply elem_of_cons in Hin as [Hin | Hin];
        [discriminate Hin | ]). by apply elem_of_nil in Hin.
    + discriminate.
Qed.

Lemma checkout_publish_before_delete_witness :
  get "alice" (checkout shop bus_down alice_request
                 (put alice_basket empty_world)).1 = Some alice_basket /\
  exists why,
    (checkout shop bus_down alice_request (put alice_basket empty_world)).2
    = Failed why.
Proof.
  destruct (checkout_publish_before_delete shop bus_down alice_request
              (put alice_basket empty_world)) as (new & _ & _ & _ & Hfails).
  destruct (Hfails eq_refl) as (Hget & _ & Hwhy).
  split; [ | exact Hwhy]. rewrite Hget. reflexivity.
Defined.

(** C3 (no checkout on an empty basket).  For a user with no basket, or
    with a basket whose item list is null or empty, the checkout fails,
    nothing reaches the bus, the publisher is not called and the baskets
    are what they were; the failure is the business error as soon as the
    user name passes validation and the store answers. *)
Theorem checkout_empty_basket (cfg : Config) (f : Faults)
        (request : CheckoutRequest) (user : string) (w : World) :
  request_userName request = Some user ->
  (baskets w !! user = None \/
   exists basket,
     baskets w !! user = Some basket /\
     (items basket = None \/ items basket = Some [])) ->
  (exists why, (checkout cfg f request w).2 = Failed why) /\
  bus (checkout cfg f request w).1 = bus w /\
  baskets (checkout cfg f request w).1 = baskets w /\
  (exists new,
      calls (checkout cfg f request w).1 = calls w ++ new /\
      forall payload ok, Publish payload ok ∉ new) /\
  (user <> "" -> get_fails f = false ->
   (checkout cfg f request w).2 = Failed BusinessError).
Proof.
  intros Huser Hempty.
  assert (Hlines : lines_of w user = []).
  { unfold lines_of.
    destruct Hempty as [-> | (basket & -> & [-> | ->])]; reflexivity. }
  rewrite checkout_eval, Huser, Hlines.
  destruct (decide (user = "")).
  { split; [by eexists | split; [done | split; [done | split]]].
    - exists []. rewrite app_nil_r. split; [done | ].
      intros payload ok Hin. by apply elem_of_nil in Hin.
    - done. }
  destruct (get_fails f).
  - split; [by eexists | split; [done | split; [done | split]]].
    + exists [GetBasket user false]. split; [done | ].
      intros payload ok Hin. apply list_elem_of_singleton in Hin. discriminate.
    + done.
  - split; [by eexists | split; [done | split; [done | split]]].
    + exists [GetBasket user true]. split; [done | ].
      intros payload ok Hin. apply list_elem_of_singleton in Hin. discriminate.
    + done.
Qed.

Lemma checkout_empty_basket_witness :
  (checkout shop no_faults alice_request empty_world).2 = Failed BusinessError
  /\ bus (checkout shop no_faults alice_request empty_world).1 = [].
Proof.
  destruct (checkout_empty_basket shop no_faults alice_request "alice"
              empty_world eq_refl (or_introl eq_refl))
    as (_ & Hbus & _ & _ & Hwhy).
  split; [ | exact Hbus].
  apply Hwhy; [discriminate | reflexivity].
Defined.

End Checkout.

(** ** The handler: what a request can and cannot do to the table *)

Section HandlerFacts.
Import Product.
Context {limits : Limits}.

Lemma reads_only_ret {A} (a : A) : reads_only (ret a).
Proof. by intros t. Qed.

Lemma reads_only_throw {A} (e : Exception) : reads_only (@throw A e).
Proof. by intros t. Qed.

Lemma reads_only_lift {A} (r : Result A) : reads_only (lift r).
Proof. by intros t. Qed.

Lemma reads_only_bind {A B} (m : Client A) (k : A -> Client B) :
  reads_only m -> (forall a, reads_only (k a)) -> reads_only (bind m k).
Proof.
  intros Hm Hk t. unfold bind. specialize (Hm t).
  destruct (m t) as [[a | e] t']; simpl in *; subst; [apply Hk | done].
Qed.

Lemma reads_only_try_catch {A} (m : Client A) (h : Exception -> Client A) :
  reads_only m -> (forall e, reads_only (h e)) -> reads_only (try_catch m h).
Proof.
  intros Hm Hh t. unfold try_catch. specialize (Hm t).
  destruct (m t) as [[a | e] t']; simpl in *; subst; [done | apply Hh].
Qed.

Lemma reads_only_GetItem (Key : Item) : reads_only (send (GetItemCommand Key)).
Proof. intros t. simpl. unfold GetItem. by destruct (key_of Key). Qed.

Lemma reads_only_Scan : reads_only (send ScanCommand).
Proof. by intros t. Qed.

Lemma reads_only_Query (input : Query.Input) :
  reads_only (send (QueryCommand input)).
Proof. intros t. simpl. unfold Query, refuse, throw. by repeat case_match. Qed.

(** Takes a reading handler apart along its binds and matches. *)
Ltac reads_only :=
  repeat first
    [ apply reads_only_try_catch | apply reads_only_bind | apply reads_only_ret
    | apply reads_only_throw | apply reads_only_lift
    | apply reads_only_GetItem | apply reads_only_Scan
    | apply reads_only_Query
    | progress cbv zeta
    | match goal with |- forall _, _ => intros ? end
    | case_match ].

Lemma getProductsByCategory_reads_only (event : Event) :
  reads_only (getProductsByCategory event).
Proof. unfold getProductsByCategory. reads_only. Qed.

Lemma getAllProducts_reads_only : reads_only getAllProducts.
Proof. unfold getAllProducts. reads_only. Qed.

Lemma getProduct_reads_only (productId : string) :
  reads_only (getProduct productId).
Proof. unfold getProduct. reads_only. Qed.

(** X4.  A GET request never changes the table, whatever its parameters
    and whether it is answered 200 or 500. *)
Theorem handler_GET_reads_only (uuidv4 : string) (event : Event) (t : Table) :
  httpMethod event = "GET" -> (handler uuidv4 event t).2 = t.
Proof.
  intros Hmethod. unfold handler.
  assert (Hroute : reads_only (route uuidv4 event)).
  { unfold route, fmap_client. rewrite Hmethod. simpl.
    pose proof getProductsByCategory_reads_only.
    pose proof getAllProducts_reads_only.
    pose proof getProduct_reads_only.
    repeat case_match; reads_only; auto. }
  specialize (Hroute t).
  by destruct (route uuidv4 event t) as [[b | e] t'].
Qed.

Lemma fails_clean_reads_only {A} (m : Client A) : reads_only m -> fails_clean m.
Proof. intros Hm t e t' Heq. specialize (Hm t). by rewrite Heq in Hm. Qed.

Lemma fails_clean_send (command : Command) : fails_clean (send command).
Proof.
  destruct command as [Key | item | Key | input | | input];
    try (apply fails_clean_reads_only;
         first [apply reads_only_GetItem | apply reads_only_Scan
               | apply reads_only_Query]).
  - intros t e t'. simpl. unfold PutItem, refuse, throw.
    repeat case_match; congruence.
  - intros t e t'. simpl. unfold DeleteItem. repeat case_match; congruence.
  - intros t e t'. simpl.
    destruct (UpdateItem_cases input t) as [[e' ->] | (k & asg & _ & _ & _ & ->)];
      congruence.
Qed.

Lemma fails_clean_bind {A B} (m : Client A) (k : A -> Client B) :
  reads_only m -> (forall a, fails_clean (k a)) -> fails_clean (bind m k).
Proof.
  intros Hm Hk t e t'. unfold bind. specialize (Hm t).
  destruct (m t) as [[a | e'] t'']; simpl in *; subst.
  - apply Hk.
  - congruence.
Qed.

Lemma fails_clean_fmap {A B} (f : A -> B) (m : Client A) :
  fails_clean m -> fails_clean (fmap_client f m).
Proof.
  intros Hm t e t'. unfold fmap_client, bind, ret. specialize (Hm t).
  destruct (m t) as [[a | e'] t'']; [done | ].
  intros [= <- <-]. by eapply Hm.
Qed.

Lemma fails_clean_try_catch {A} (m : Client A) :
  fails_clean m -> fails_clean (try_catch m (fun e => throw e)).
Proof. intros Hm t. rewrite try_catch_rethrow. apply Hm. Qed.

Lemma fails_clean_throw {A} (e : Exception) : fails_clean (@throw A e).
Proof. apply fails_clean_reads_only, reads_only_throw. Qed.

(** Takes a handler apart down to the one command it sends. *)
Ltac fails_clean :=
  repeat first
    [ apply fails_clean_try_catch | apply fails_clean_fmap
    | apply fails_clean_send | apply fails_clean_throw
    | apply fails_clean_bind; [apply reads_only_lift | ]
    | progress cbv zeta
    | match goal with |- forall _, _ => intros ? end
    | case_match ].

(** X5.  A request that is answered 500 has changed nothing: every
    operation throws before its one command, or the command is refused
    whole. *)
Theorem handler_failure_changes_nothing (uuidv4 : string) (event : Event)
        (t : Table) :
  statusCode (handler uuidv4 event t).1 = 500%Z ->
  (handler uuidv4 event t).2 = t.
Proof.
  unfold handler.
  assert (Hroute : fails_clean (route uuidv4 event)).
  { unfold route.
    pose proof (fails_clean_reads_only _ (getProductsByCategory_reads_only event)).
    pose proof (fails_clean_reads_only _ getAllProducts_reads_only).
    pose proof (fun i => fails_clean_reads_only _ (getProduct_reads_only i)).
    assert (fails_clean (createProduct uuidv4 event))
      by (unfold createProduct; fails_clean).
    assert (forall i, fails_clean (deleteProduct i))
      by (intros i; unfold deleteProduct; fails_clean).
    assert (fails_clean (updateProduct event))
      by (unfold updateProduct; fails_clean).
    repeat case_decide; repeat case_match;
      repeat first [ solve [auto]
                   | apply fails_clean_fmap | apply fails_clean_throw
                   | apply fails_clean_bind; [apply reads_only_lift | intros ?]
                   | case_match ]. }
  specialize (Hroute t).
  destruct (route uuidv4 event t) as [[b | e] t']; simpl; [done | ].
  intros _. by eapply Hroute.
Qed.

(** X1.  A method the handler has no case for is answered 500 with the
    unsupported-route error, and nothing is sent to the store. *)
Theorem handler_unsupported_method (uuidv4 : string) (event : Event)
        (t : Table) :
  ~ supported (httpMethod event) ->
  handler uuidv4 event t = (Failed (UnsupportedRoute (httpMethod event)), t).
Proof.
  intros Hmethod. unfold handler, route, supported in *.
  repeat case_decide; first [tauto | reflexivity].
Qed.

(** X2.  A GET that carries query parameters always goes to the category
    filter: when the path has no id, or the query has no [category], it
    is answered 500 and never falls back to the product or to the list
    of products. *)
Theorem handler_GET_query_needs_id_and_category (uuidv4 : string)
        (event : Event) (q : QueryStringParameters) (t : Table) :
  httpMethod event = "GET" ->
  queryStringParameters event = Some q ->
  pathParameters event = None \/
  pathParameters event = Some {| id := None |} \/
  category q = None ->
  exists e, handler uuidv4 event t = (Failed e, t).
Proof.
  intros Hmethod Hquery Hmissing.
  unfold handler, route, fmap_client. rewrite Hmethod, Hquery. simpl.
  unfold getProductsByCategory, bind at 1. rewrite try_catch_rethrow.
  unfold bind, lift, pathParameters_id, queryStringParameters_category.
  rewrite Hquery.
  destruct (pathParameters event) as [[[pid | ]] | ] eqn:Hpath;
    [ | by eexists | by eexists].
  destruct Hmissing as [H | [H | H]]; [done | done | ].
  rewrite H. by eexists.
Qed.

End HandlerFacts.


Section HandlerFactsExamples.
Import Product.
#[local] Existing Instance unlimited.

Lemma handler_GET_reads_only_witness :
  (handler "u-1" (category_query "p-1" "ool") catalog).2 = catalog.
Proof.
  apply (handler_GET_reads_only "u-1" (category_query "p-1" "ool") catalog).
  reflexivity.
Defined.

Lemma handler_failure_changes_nothing_witness :
  (handler "u-1" (request "PUT" "p-1" (Some (JObject [("id", JString "p-2")])))
           catalog).2 = catalog.
Proof.
  apply (handler_failure_changes_nothing "u-1"
           (request "PUT" "p-1" (Some (JObject [("id", JString "p-2")])))
           catalog).
  reflexivity.
Defined.

Lemma handler_unsupported_method_witness :
  handler "u-1" (request "PATCH" "p-1" None) catalog
  = (Failed (UnsupportedRoute "PATCH"), catalog).
Proof.
  apply (handler_unsupported_method "u-1" (request "PATCH" "p-1" None) catalog).
  unfold supported. simpl. intros [H | [H | [H | H]]]; discriminate H.
Defined.

Lemma handler_GET_query_needs_id_and_category_witness :
  exists e,
    handler "u-1"
      {| httpMethod := "GET";
         pathParameters := Some {| id := Some "p-1" |};
         queryStringParameters := Some {| category := None |};
         body := None |} catalog
    = (Failed e, catalog).
Proof.
  apply (handler_GET_query_needs_id_and_category "u-1" _ {| category := None |}).
  - reflexivity.
  - reflexivity.
  - right. right. reflexivity.
Defined.

End HandlerFactsExamples.

(** ** The product catalog: how the operations compose *)

Section OperationFacts.
Import Product.
Context {limits : Limits}.
Local Open Scope list_scope.

(** The [SET] action as a union: the assigned attributes over the old
    ones. *)
Lemma apply_assignments_union (item : Item)
      (assignments : list (string * AttributeValue)) :
  NoDup assignments.*1 ->
  apply_assignments item assignments = list_to_map assignments ∪ item.
Proof.
  unfold apply_assignments. revert item.
  induction assignments as [ | [a v] asg IH]; intros item Hnd; simpl.
  - by rewrite (left_id_L ∅ (∪)).
  - rewrite fmap_cons in Hnd. apply NoDup_cons in Hnd as [Ha Hnd].
    rewrite IH by done. rewrite <- insert_union_l. symmetry.
    apply insert_union_r. by apply not_elem_of_list_to_map_1.
Qed.

(** X3.  [getAllProducts] answers the list of the stored products, each
    of them once: as many as the table has keys (for a table that Scan
    returns in one page). *)
Theorem getAllProducts_lists_table (t : Table) :
  exists products,
    getAllProducts t = (Ok (inl products), t) /\
    length products = size t /\
    forall p,
      p ∈ products <->
      exists k (item : Item), t !! k = Some item /\ p = unmarshall item.
Proof.
  exists (map unmarshall (map_to_list t).*2). split; [ | split].
  - unfold getAllProducts. by rewrite try_catch_rethrow.
  - change (map ?f ?l) with (f <$> l).
    by rewrite !length_fmap, length_map_to_list.
  - intros p. change (map ?f ?l) with (f <$> l).
    rewrite list_elem_of_fmap. split.
    + intros (item & -> & Hin). apply list_elem_of_fmap in Hin as ([k i] & -> & Hin).
      apply elem_of_map_to_list in Hin. by exists k, i.
    + intros (k & item & Hk & ->). exists item. split; [done | ].
      apply list_elem_of_fmap. exists (k, item). split; [done | ].
      by apply elem_of_map_to_list.
Qed.


(** A create throws on the table it got, or stores one item under the
    generated id. *)
Lemma createProduct_outcome (uuidv4 : string) (event : Event) (t : Table) :
  (exists e, createProduct uuidv4 event t = (Throw e, t)) \/
  (key_ok uuidv4 = true /\
   exists item : Item,
     createProduct uuidv4 event t = (Ok metadata, <[uuidv4 := item]> t)).
Proof.
  destruct (body event) as [[ | b | n | s | l | fields] | ] eqn:Hbody;
    try (left; unfold createProduct; rewrite try_catch_rethrow;
         unfold bind, lift; rewrite Hbody; by eexists).
  rewrite (createProduct_eval _ _ fields) by done.
  destruct (marshall _) as [item | e]; [ | left; by eexists].
  destruct (key_ok uuidv4); simpl; [ | left; by eexists].
  case_bool_decide; [left; by eexists | ].
  destruct (item_ok item); [ | left; by eexists].
  right. split; [done | by exists item].
Qed.

Lemma createProduct_other_products_frame (uuidv4 : string) (event : Event)
      (t : Table) (k : string) :
  k <> uuidv4 -> (createProduct uuidv4 event t).2 !! k = t !! k.
Proof.
  intros Hk.
  destruct (createProduct_outcome uuidv4 event t)
    as [[e ->] | (_ & item & ->)]; simpl; [done | ].
  by rewrite lookup_insert_ne.
Qed.

(** X7.  [createProduct] changes the table at the generated id only:
    whatever the request, every product stored under another id is as
    it was, and so is the whole table when the create throws. *)
Theorem createProduct_other_products (uuidv4 : string) (event : Event)
        (t : Table) :
  (forall k, k <> uuidv4 -> (createProduct uuidv4 event t).2 !! k = t !! k) /\
  (forall e, (createProduct uuidv4 event t).1 = Throw e ->
             (createProduct uuidv4 event t).2 = t).
Proof.
  split; [intros k; apply createProduct_other_products_frame | ].
  intros e He.
  destruct (createProduct_outcome uuidv4 event t)
    as [[e' ->] | (_ & item & Heq)]; [done | ].
  rewrite Heq in He. discriminate He.
Qed.


(** X9.  [updateProduct] changes the table at the id of the path only:
    products stored under other ids are as they were, and without an id
    in the path nothing changes at all. *)
Theorem updateProduct_other_products (event : Event) (t : Table) :
  (forall X k,
      pathParameters event = Some {| id := Some X |} -> k <> X ->
      (updateProduct event t).2 !! k = t !! k) /\
  (pathParameters event = None \/ pathParameters event = Some {| id := None |} ->
   (updateProduct event t).2 = t).
Proof.
  destruct (updateProduct_outcome event t)
    as [[e ->] | (requestBody & X & asg & _ & Hpath & _ & _ & _ & _ & _ & _ & _
                  & _ & ->)]; simpl.
  { by split. }
  split.
  - intros X' k HX' Hk. rewrite Hpath in HX'. injection HX' as <-.
    by rewrite lookup_insert_ne.
  - rewrite Hpath. intros [H | H]; discriminate H.
Qed.

(** X8.  Update, then get: after an update of a stored product that the
    store has accepted, [getProduct] answers the fields of the body over
    the fields the product had. *)
Theorem updateProduct_then_get (event : Event) (X : string)
        (fields : list (string * Value)) (item : Item) (t : Table)
        (out : Output) :
  pathParameters event = Some {| id := Some X |} ->
  body event = Some (JObject fields) ->
  t !! X = Some item ->
  (updateProduct event t).1 = Ok out ->
  getProduct X (updateProduct event t).2
  = (Ok (list_to_map fields ∪ unmarshall item), (updateProduct event t).2).
Proof.
  intros Hpath Hbody Hitem Hok.
  destruct (updateProduct_outcome event t)
    as [[e He] | (requestBody & X' & asg & Hbody' & Hpath' & Hasg & Hid & _
                  & Hnd & _ & HX & _ & _ & Hupd)].
  { rewrite He in Hok. discriminate Hok. }
  rewrite Hbody in Hbody'. injection Hbody' as <-.
  rewrite Hpath in Hpath'. injection Hpath' as <-.
  rewrite getProduct_eval, HX. f_equal. rewrite Hupd. simpl.
  rewrite lookup_insert_eq, Hitem. simpl default. f_equal.
  simpl in Hnd. rewrite assignments_of_object in Hasg by done.
  rewrite apply_assignments_union
    by (by rewrite (marshall_entries_keys fields asg Hasg)).
  unfold unmarshall at 1. rewrite map_fmap_union. f_equal.
  apply (unmarshall_marshall fields). unfold marshall. by rewrite Hasg.
Qed.

(** X10.  The same update a second time changes nothing and is answered
    like the first: [updateProduct] is idempotent, whether it succeeds
    or throws. *)
Theorem updateProduct_twice (event : Event) (t : Table) :
  updateProduct event (updateProduct event t).2 = updateProduct event t.
Proof.
  destruct (updateProduct_outcome event t)
    as [[e He] | (requestBody & X & asg & Hbody & Hpath & Hasg & Hid & Hname
                  & Hnd & Hne & HX & Hexpr & Hitem & Hupd)].
  { by rewrite He. }
  pose proof (assignments_of_keys requestBody asg Hasg) as Hkeys.
  assert (Hasg' : asg <> []) by (intros ->; by rewrite <- Hkeys in Hne).
  rewrite Hupd. cbn [snd].
  rewrite (updateProduct_eval_fields event requestBody X asg) by done.
  unfold SET. rewrite Hkeys.
  rewrite !bool_decide_eq_false_2 by done.
  rewrite bool_decide_eq_true_2 by done.
  rewrite key_of_singleton, HX, Hexpr.
  rewrite lookup_insert_eq. cbn [from_option Datatypes.id].
  assert (Hsame :
    apply_assignments
      (apply_assignments (default {[partition_key := S X]} (t !! X)) asg) asg
    = apply_assignments (default {[partition_key := S X]} (t !! X)) asg).
  { rewrite !apply_assignments_union by (by rewrite Hkeys).
    by rewrite (assoc_L (∪)), (idemp_L (∪)). }
  rewrite Hsame, Hitem. cbn [andb]. by rewrite insert_insert_eq.
Qed.

(** The category filter throws, or it is the query of one id with one
    text. *)
Lemma getProductsByCategory_outcome (event : Event) (t : Table) :
  (exists e, getProductsByCategory event t = (Throw e, t)) \/
  (exists productId category,
      pathParameters event = Some {| id := Some productId |} /\
      queryStringParameters event
      = Some {| Product.category := Some category |}).
Proof.
  destruct (pathParameters event) as [[[pid | ]] | ] eqn:Hpath;
    destruct (queryStringParameters event) as [[[cat | ]] | ] eqn:Hquery;
    try (right; by exists pid, cat);
    left; unfold getProductsByCategory; rewrite try_catch_rethrow;
    unfold bind, lift, pathParameters_id, queryStringParameters_category;
    rewrite Hpath, ?Hquery; try (by eexists);
    cbn [id Product.category send]; unfold Query;
    cbn [Query.KeyConditionExpression Query.FilterExpression
         Query.ExpressionAttributeValues];
    change (parse_key_condition "id = :productId")
      with (Some ("id", ":productId"));
    change (parse_contains "contains (category, :category)")
      with (Some ("category", ":category"));
    cbv iota beta; rewrite bool_decide_eq_true_2 by done;
    rewrite lookup_insert_eq;
    rewrite lookup_insert_ne, lookup_singleton_eq by done;
    by eexists.
Qed.

(** X12.  The category filter answers at most one product, and a product
    it answers is the one [getProduct] answers for the id of the path:
    it is a get with a condition, not a search. *)
Theorem getProductsByCategory_at_most_one (event : Event) (t : Table)
        (products : list (gmap string Value)) :
  (getProductsByCategory event t).1 = Ok products ->
  length products <= 1 /\
  forall p,
    p ∈ products ->
    exists productId,
      pathParameters event = Some {| id := Some productId |} /\
      getProduct productId t = (Ok p, t).
Proof.
  intros Hok.
  destruct (getProductsByCategory_outcome event t)
    as [[e He] | (productId & category & Hpath & Hquery)].
  { rewrite He in Hok. discriminate Hok. }
  rewrite (getProductsByCategory_eval event productId category t) in Hok by done.
  destruct (key_ok productId) eqn:Hkey; [ | discriminate Hok].
  simpl in Hok. injection Hok as <-.
  destruct (t !! productId) as [item | ] eqn:Hitem; cycle 1.
  { split; [simpl; lia | ]. intros p Hp. by apply elem_of_nil in Hp. }
  destruct (contains (item !! "category") (S category)); cycle 1.
  { split; [simpl; lia | ]. intros p Hp. by apply elem_of_nil in Hp. }
  split; [simpl; lia | ]. intros p Hp. simpl in Hp.
  apply list_elem_of_singleton in Hp as ->. exists productId.
  split; [done | ]. by rewrite getProduct_eval, Hkey, Hitem.
Qed.

(** X13.  Delete, then get: for an id that may be a key, the deleted id
    answers the empty object, and every other id answers what it
    answered before. *)
Theorem deleteProduct_then_get (productId : string) (t : Table) :
  key_ok productId = true ->
  getProduct productId (deleteProduct productId t).2
  = (Ok ∅, (deleteProduct productId t).2) /\
  forall k,
    k <> productId ->
    (getProduct k (deleteProduct productId t).2).1 = (getProduct k t).1.
Proof.
  intros Hkey. rewrite deleteProduct_eval, Hkey. simpl. split.
  - by rewrite getProduct_eval, Hkey, lookup_delete_eq.
  - intros k Hk. rewrite !getProduct_eval.
    destruct (key_ok k); [ | done]. simpl. by rewrite lookup_delete_ne.
Qed.

(** X14.  Create, then delete: when the generated id was free, deleting
    it gives back the table there was before the create, whatever the
    request was. *)
Theorem createProduct_then_delete (uuidv4 : string) (event : Event)
        (t : Table) :
  t !! uuidv4 = None ->
  (deleteProduct uuidv4 (createProduct uuidv4 event t).2).2 = t.
Proof.
  intros Hfree. rewrite deleteProduct_eval.
  destruct (createProduct_outcome uuidv4 event t)
    as [[e ->] | (Hkey & item & ->)]; simpl.
  - destruct (key_ok uuidv4); simpl; [by apply delete_id | done].
  - rewrite Hkey. simpl. rewrite delete_insert_eq. by apply delete_id.
Qed.

Lemma imap_ignores_elements {A B C} (f : nat -> C) (l : list A) (l' : list B) :
  length l = length l' ->
  imap (fun i _ => f i) l = imap (fun i _ => f i) l'.
Proof.
  revert f l'. induction l as [ | x l IH]; intros f [ | x' l'] Hlen;
    simpl in Hlen; try discriminate Hlen; [done | ].
  rewrite !imap_cons. f_equal. apply (IH (f ∘ Datatypes.S)). lia.
Qed.

(** X15.  The names of the fields never reach the text of the update
    expression: it is the same for any two bodies with as many keys, and
    for at least one key it reads back as one assignment per key. *)
Theorem UpdateExpression_hides_names (keys keys' : list string) :
  length keys = length keys' ->
  UpdateExpression_for keys = UpdateExpression_for keys' /\
  (keys <> [] ->
   exists clauses,
     parse_update (UpdateExpression_for keys) = Some clauses /\
     length clauses = length keys).
Proof.
  intros Hlen. split.
  - unfold UpdateExpression_for, map_indexed. do 2 f_equal.
    by apply (imap_ignores_elements
                (fun index => "#key" +:+ pretty index +:+ " = :value"
                              +:+ pretty index)).
  - intros Hne. rewrite parse_update_expression.
    destruct keys as [ | key keys]; [done | ].
    eexists. split; [reflexivity | by rewrite length_imap].
Qed.








End OperationFacts.

Section OperationFactsExamples.
Import Product.
#[local] Existing Instance unlimited.

Lemma createProduct_other_products_witness :
  (createProduct "u-1" (request "POST" "" (Some (JObject []))) catalog).2 !! "p-1"
  = catalog !! "p-1".
Proof.
  apply (proj1 (createProduct_other_products "u-1"
                  (request "POST" "" (Some (JObject []))) catalog) "p-1").
  discriminate.
Defined.

Lemma updateProduct_other_products_witness :
  (updateProduct (request "PUT" "p-9"
                    (Some (JObject [("price", JNumber (integer 1))])))
                 catalog).2 !! "p-1" = catalog !! "p-1".
Proof.
  apply (proj1 (updateProduct_other_products
                  (request "PUT" "p-9"
                     (Some (JObject [("price", JNumber (integer 1))])))
                  catalog) "p-9" "p-1").
  - reflexivity.
  - discriminate.
Defined.

Lemma updateProduct_then_get_witness :
  getProduct "p-1"
    (updateProduct (request "PUT" "p-1"
                      (Some (JObject [("price", JNumber (integer 42))])))
                   catalog).2
  = (Ok (list_to_map [("price", JNumber (integer 42))] ∪ unmarshall widget),
     (updateProduct (request "PUT" "p-1"
                       (Some (JObject [("price", JNumber (integer 42))])))
                    catalog).2).
Proof.
  apply (updateProduct_then_get
           (request "PUT" "p-1"
              (Some (JObject [("price", JNumber (integer 42))])))
           "p-1" [("price", JNumber (integer 42))] widget catalog metadata).
  - reflexivity.
  - reflexivity.
  - reflexivity.
  - reflexivity.
Defined.

Lemma getProductsByCategory_at_most_one_witness :
  length [unmarshall widget] <= 1 /\
  forall p,
    p ∈ [unmarshall widget] ->
    exists productId,
      pathParameters (category_query "p-1" "ool")
      = Some {| id := Some productId |} /\
      getProduct productId catalog = (Ok p, catalog).
Proof.
  apply (getProductsByCategory_at_most_one (category_query "p-1" "ool") catalog).
  reflexivity.
Defined.

Lemma deleteProduct_then_get_witness :
  getProduct "p-1" (deleteProduct "p-1" catalog).2
  = (Ok ∅, (deleteProduct "p-1" catalog).2) /\
  (getProduct "p-1" (deleteProduct "p-7" catalog).2).1
  = (getProduct "p-1" catalog).1.
Proof.
  split.
  - apply (deleteProduct_then_get "p-1" catalog). reflexivity.
  - apply (deleteProduct_then_get "p-7" catalog); [reflexivity | discriminate].
Defined.

Lemma createProduct_then_delete_witness :
  (deleteProduct sample_uuid
     (createProduct sample_uuid
        (request "POST" "" (Some (JObject [("name", JString "Widget")])))
        catalog).2).2 = catalog.
Proof.
  apply (createProduct_then_delete sample_uuid
           (request "POST" "" (Some (JObject [("name", JString "Widget")])))
           catalog).
  reflexivity.
Defined.

Lemma UpdateExpression_hides_names_witness :
  UpdateExpression_for ["name"; "price"]
  = UpdateExpression_for ["SET"; "a = b, c"].
Proof.
  apply (UpdateExpression_hides_names ["name"; "price"] ["SET"; "a = b, c"]).
  reflexivity.
Defined.


End OperationFactsExamples.

(** ** The product catalog: ids *)

Section IdFacts.
Import Product.
Context {limits : Limits}.
Local Open Scope list_scope.

(** X18.  A DELETE or a PUT without path parameters is answered 500 and
    changes nothing. *)
Theorem handler_write_needs_path (uuidv4 : string) (event : Event) (t : Table) :
  httpMethod event = "DELETE" \/ httpMethod event = "PUT" ->
  pathParameters event = None ->
  exists e, handler uuidv4 event t = (Failed e, t).
Proof.
  intros [Hmethod | Hmethod] Hpath; unfold handler, route; rewrite Hmethod; simpl.
  - unfold bind, lift, pathParameters_id. rewrite Hpath. by eexists.
  - unfold fmap_client, bind.
    destruct (updateProduct_outcome event t)
      as [[e ->] | (requestBody & X & asg & _ & HX & _)]; [by eexists | ].
    rewrite Hpath in HX. discriminate HX.
Qed.

Lemma unmarshall_id (item : Item) (k : string) :
  item !! partition_key = Some (S k) ->
  unmarshall item !! "id" = Some (JString k).
Proof.
  intros Hid. unfold unmarshall. rewrite lookup_fmap.
  change partition_key with "id" in Hid. by rewrite Hid.
Qed.

(** X19.  On a table keyed by ids, the product [getProduct] answers for
    a stored id carries that id in its [id] field. *)
Theorem getProduct_has_requested_id (productId : string) (item : Item)
        (t : Table) :
  table_wf t -> t !! productId = Some item ->
  exists p,
    getProduct productId t = (Ok p, t) /\ p !! "id" = Some (JString productId).
Proof.
  intros Hwf Hitem. destruct (Hwf _ _ Hitem) as [Hid Hkey].
  rewrite getProduct_eval, Hkey, Hitem. eexists.
  split; [reflexivity | ]. by apply unmarshall_id.
Qed.


End IdFacts.

Section IdFactsExamples.
Import Product.
#[local] Existing Instance unlimited.

Lemma handler_table_wf_witness :
  table_wf (handler "u-1"
              (request "POST" "" (Some (JObject [("id", JString "p-1")])))
              catalog).2.
Proof.
  apply (handler_table_wf "u-1"
           (request "POST" "" (Some (JObject [("id", JString "p-1")])))
           catalog).
  exact catalog_wf.
Defined.

Lemma handler_write_needs_path_witness :
  exists e,
    handler "u-1"
      {| httpMethod := "DELETE"; pathParameters := None;
         queryStringParameters := None; body := None |} catalog
    = (Failed e, catalog).
Proof.
  apply (handler_write_needs_path "u-1"
           {| httpMethod := "DELETE"; pathParameters := None;
              queryStringParameters := None; body := None |} catalog).
  - left. reflexivity.
  - reflexivity.
Defined.

Lemma getProduct_has_requested_id_witness :
  exists p,
    getProduct "p-1" catalog = (Ok p, catalog) /\
    p !! "id" = Some (JString "p-1").
Proof.
  apply (getProduct_has_requested_id "p-1" widget catalog).
  - exact catalog_wf.
  - reflexivity.
Defined.


End IdFactsExamples.

